(** * Graph retrieval over a property graph: a shallow embedding

    The development follows [src/graph_rag_structured.py]
    ([structured_retriever], [retriever], [chain]) and [src/app.py]
    ([get_graph_data], [generate_graph_visualization],
    [process_unified_query]).

    Modelling conventions.
    - Python [str] and Cypher [STRING] values are Rocq strings; [toLower],
      [str.lower] and [str.strip] act on the ASCII range.  Messages that
      hold characters outside ASCII are kept as their UTF-8 bytes.
    - The graph store is a value of type [Graph]; the two Cypher queries
      are given their openCypher meaning as list functions (module
      [Cypher]).  A nullable Cypher value is an [option].
    - A Python exception is [Raised msg]; the calls to the language model
      and to the store are recorded in a trace of [Event]s.  The store
      is reachable and answers every query of the two templates; pyvis
      receives the nodes and edges, and writing the file succeeds or
      raises as the world says.
    - [DEBUG_MODE] is [False], the value both modules start with, so
      [log_debug] does nothing and [debug_logs] stays empty. *)

From Stdlib Require Import List String Ascii Bool Arith Lia.
From Stdlib Require Import Sorted Permutation.
From Stdlib Require Import DecimalString.
Import ListNotations.

Local Open Scope string_scope.
Local Open Scope list_scope.
Local Open Scope nat_scope.

Infix "+++" := String.append (right associativity, at level 60).

(** ** Strings *)

(** The line feed of ["\n"]. *)
Definition nl : string := String (ascii_of_nat 10) EmptyString.

(** [str(n)] for a natural number. *)
Definition str_of_nat (n : nat) : string :=
  NilEmpty.string_of_uint (Nat.to_uint n).

Definition lower_ascii (c : ascii) : ascii :=
  let n := nat_of_ascii c in
  if (65 <=? n) && (n <=? 90) then ascii_of_nat (n + 32) else c.

(** Cypher [toLower(s)] and Python [s.lower()]. *)
Fixpoint toLower (s : string) : string :=
  match s with
  | EmptyString => EmptyString
  | String c r => String (lower_ascii c) (toLower r)
  end.

(** Python [str.isspace] on one ASCII character. *)
Definition is_space (c : ascii) : bool :=
  let n := nat_of_ascii c in
  ((9 <=? n) && (n <=? 13)) || ((28 <=? n) && (n <=? 32)).

Fixpoint lstrip (s : string) : string :=
  match s with
  | EmptyString => EmptyString
  | String c r => if is_space c then lstrip r else s
  end.

Fixpoint rstrip (s : string) : string :=
  match s with
  | EmptyString => EmptyString
  | String c r =>
      match rstrip r with
      | EmptyString => if is_space c then EmptyString else String c EmptyString
      | r' => String c r'
      end
  end.

(** Python [s.strip()]. *)
Definition strip (s : string) : string := rstrip (lstrip s).

(** Python [s.replace(a, b)] for one-character [a] and [b]. *)
Fixpoint replace_char (a b : ascii) (s : string) : string :=
  match s with
  | EmptyString => EmptyString
  | String c r =>
      String (if Ascii.eqb c a then b else c) (replace_char a b r)
  end.

(** Python ["\n".join(l)]. *)
Fixpoint join_lines (l : list string) : string :=
  match l with
  | [] => EmptyString
  | [x] => x
  | x :: r => x +++ nl +++ join_lines r
  end.

(** ** The property graph *)

Record Node := mkNode {
  element_id : string;        (* store-assigned identity *)
  n_id : option string        (* the [id] property, when present *)
}.

Record Relationship := mkRel {
  rel_element_id : string;    (* store-assigned identity *)
  startNode : Node;
  rel_type : string;
  endNode : Node
}.

Record Graph := mkGraph {
  nodes : list Node;
  relationships : list Relationship
}.

(** Relationship identities are unique in a store. *)
Definition wf_graph (g : Graph) : Prop :=
  NoDup (map rel_element_id (relationships g)).

(** ** Generic list helpers *)

(** Keep the first occurrence of every element, in order. *)
Fixpoint distinct {A : Type} (eqb : A -> A -> bool) (l : list A) : list A :=
  match l with
  | [] => []
  | x :: r => x :: filter (fun y => negb (eqb x y)) (distinct eqb r)
  end.

Fixpoint insert_sorted {A : Type} (leb : A -> A -> bool) (x : A)
    (l : list A) : list A :=
  match l with
  | [] => [x]
  | y :: r => if leb x y then x :: l else y :: insert_sorted leb x r
  end.

Fixpoint sort_by {A : Type} (leb : A -> A -> bool) (l : list A) : list A :=
  match l with
  | [] => []
  | x :: r => insert_sorted leb x (sort_by leb r)
  end.

(** ** Cypher: the meaning of the queries the program sends *)

Module Cypher.

(** Nodes and relationships are compared by identity. *)
Definition same_node (a b : Node) : bool :=
  String.eqb (element_id a) (element_id b).

Definition same_rel (a b : Relationship) : bool :=
  String.eqb (rel_element_id a) (rel_element_id b).

Definition rel_in (r : Relationship) (used : list Relationship) : bool :=
  existsb (same_rel r) used.

(** [WHERE toLower(n.id) = toLower($entity)]: a node without [id] gives
    null, which the filter drops. *)
Definition id_matches (entity : string) (n : Node) : bool :=
  match n_id n with
  | Some i => String.eqb (toLower i) (toLower entity)
  | None => false
  end.

(** [MATCH (n) WHERE toLower(n.id) = toLower($entity)]. *)
Definition match_anchor (g : Graph) (entity : string) : list Node :=
  filter (id_matches entity) (nodes g).

(** [(cur)-[*1..]->(m)] continuing the path [used]: a pattern never
    binds one relationship twice, so a step takes a relationship that
    leaves [cur] and is not on the path yet; every extension is a match
    of its own.  Relationships are tried in store order. *)
Fixpoint expand_out (fuel : nat) (rels used : list Relationship)
    (cur : Node) : list (list Relationship) :=
  match fuel with
  | 0 => []
  | S k =>
      flat_map
        (fun r =>
           if same_node (startNode r) cur && negb (rel_in r used)
           then (used ++ [r]) :: expand_out k rels (used ++ [r]) (endNode r)
           else [])
        rels
  end.

(** [(m)-[*1..]->(cur)] grown backwards from its end node. *)
Fixpoint expand_in (fuel : nat) (rels used : list Relationship)
    (cur : Node) : list (list Relationship) :=
  match fuel with
  | 0 => []
  | S k =>
      flat_map
        (fun r =>
           if same_node (endNode r) cur && negb (rel_in r used)
           then (r :: used) :: expand_in k rels (r :: used) (startNode r)
           else [])
        rels
  end.

(** A path holds at most as many relationships as the store does. *)
Definition paths_out (g : Graph) (n : Node) : list (list Relationship) :=
  expand_out (List.length (relationships g)) (relationships g) [] n.

Definition paths_in (g : Graph) (n : Node) : list (list Relationship) :=
  expand_in (List.length (relationships g)) (relationships g) [] n.

(** [OPTIONAL MATCH p = ... UNWIND relationships(p) AS r
    WITH DISTINCT r AS rel]: a null path unwinds to no row. *)
Definition distinct_rels (paths : Node -> list (list Relationship))
    (anchors : list Node) : list Relationship :=
  distinct same_rel (flat_map (fun n => List.concat (paths n)) anchors).

Definition rels_out (g : Graph) (entity : string) : list Relationship :=
  distinct_rels (paths_out g) (match_anchor g entity).

Definition rels_in (g : Graph) (entity : string) : list Relationship :=
  distinct_rels (paths_in g) (match_anchor g entity).

(** [startNode(rel).id + ' -[' + type(rel) + ']-> ' + endNode(rel).id]:
    null as soon as one [id] is. *)
Definition render (r : Relationship) : option string :=
  match n_id (startNode r), n_id (endNode r) with
  | Some s, Some t => Some (s +++ " -[" +++ rel_type r +++ "]-> " +++ t)
  | _, _ => None
  end.

Definition value_eqb (a b : option string) : bool :=
  match a, b with
  | Some x, Some y => String.eqb x y
  | None, None => true
  | _, _ => false
  end.

(** Ascending [ORDER BY]: strings in lexicographic order, null last. *)
Definition value_leb (a b : option string) : bool :=
  match a, b with
  | Some x, Some y => String.leb x y
  | None, Some _ => false
  | _, None => true
  end.

Definition order_by (rows : list (option string)) : list (option string) :=
  sort_by value_leb rows.

(** The relationship query of [structured_retriever].  In openCypher a
    query is a sequence of single queries joined by [UNION], and
    [ORDER BY] is the tail of the projection of the [RETURN] it follows:
    it sorts the rows of the second sub-query.  [UNION] then appends the
    two row lists and drops repeated rows.  (Sorting the whole union
    takes a [CALL] sub-query around it, which this text does not have.) *)
Definition relationships_query (g : Graph) (entity : string)
    : list (option string) :=
  distinct value_eqb
    (map render (rels_out g entity)
       ++ order_by (map render (rels_in g entity))).

(** [(n)-[*2]->(grand)]: two different relationships in a row. *)
Definition two_hops (g : Graph) (n : Node) : list Node :=
  flat_map
    (fun r1 =>
       if same_node (startNode r1) n
       then flat_map
              (fun r2 =>
                 if same_node (startNode r2) (endNode r1)
                    && negb (same_rel r2 r1)
                 then [endNode r2] else [])
              (relationships g)
       else [])
    (relationships g).

(** [OPTIONAL MATCH (n)-[*2]->(grand)] keeps an anchor without such a
    path with [grand] null; [grand.id] is then null. *)
Definition grand_ids (g : Graph) (n : Node) : list (option string) :=
  match two_hops g n with
  | [] => [None]
  | l => map n_id l
  end.

(** [RETURN DISTINCT grand.id AS grandparent_id LIMIT 1]. *)
Definition grandparent_query (g : Graph) (entity : string)
    : list (option string) :=
  firstn 1 (distinct value_eqb
              (flat_map (grand_ids g) (match_anchor g entity))).

(** A record of the query of [get_graph_data]. *)
Record Row := mkRow {
  source : Node;
  row_type : string;
  target : Node
}.

Definition row_of (r : Relationship) : Row :=
  mkRow (startNode r) (rel_type r) (endNode r).

Definition row_eqb (a b : Row) : bool :=
  same_node (source a) (source b)
  && String.eqb (row_type a) (row_type b)
  && same_node (target a) (target b).

(** The query of [get_graph_data]: the same two sub-queries, returning
    the end nodes and the type, joined by [UNION], no [ORDER BY]. *)
Definition graph_data_query (g : Graph) (entity : string) : list Row :=
  distinct row_eqb
    (map row_of (rels_out g entity) ++ map row_of (rels_in g entity)).

End Cypher.

(** ** Python side: results, exceptions and the calls to the outside *)

Inductive result (A : Type) : Type :=
| Returned (a : A)
| Raised (msg : string).

Arguments Returned {A} a.
Arguments Raised {A} msg.

(** One element of [relationships] in [get_graph_data]: the indices of
    the two end nodes and the relationship type. *)
Record RelEntry := mkRelEntry {
  e_source : nat;
  e_target : nat;
  caption : string
}.

Inductive Event : Type :=
| EvExtract (question : string)          (* entity_chain.invoke *)
| EvRelationships (entity : string)      (* kg.query, relationship query *)
| EvGrandparent (entity : string)        (* kg.query, grandparent query *)
| EvChat (context question : string)     (* prompt | chat *)
| EvGraphData (entity : string)          (* tx.run in get_graph_data *)
| EvWriteHtml (filename : string) (net_nodes : list (nat * string))
    (net_edges : list RelEntry).         (* net.write_html *)

(** A computation: the trace so far in, the outcome and the trace out. *)
Definition M (A : Type) : Type := list Event -> result A * list Event.

Definition ret {A : Type} (a : A) : M A := fun tr => (Returned a, tr).

Definition raise {A : Type} (msg : string) : M A := fun tr => (Raised msg, tr).

Definition bind {A B : Type} (m : M A) (f : A -> M B) : M B :=
  fun tr =>
    match m tr with
    | (Returned a, tr') => f a tr'
    | (Raised e, tr') => (Raised e, tr')
    end.

(** A call to a collaborator: logged, then its answer or its exception. *)
Definition call {A : Type} (ev : Event) (answer : result A) : M A :=
  fun tr => (answer, tr ++ [ev]).

(** [try: m  except Exception as e: handler(str(e))]. *)
Definition try_except {A : Type} (m : M A) (handler : string -> M A) : M A :=
  fun tr =>
    match m tr with
    | (Returned a, tr') => (Returned a, tr')
    | (Raised e, tr') => handler e tr'
    end.

(** The outcome of [m] as a value, for a [try] whose body is followed
    by more code. *)
Definition attempt {A : Type} (m : M A) : M (result A) :=
  fun tr => let '(r, tr') := m tr in (Returned r, tr').

Notation "x <- m ;; k" := (bind m (fun x => k))
  (at level 61, m at next level, right associativity).
Notation "' pat <- m ;; k" := (bind m (fun x => match x with pat => k end))
  (at level 61, pat pattern, m at next level, right associativity).

(** The collaborators of one request. *)
Record World := mkWorld {
  kg : Graph;                                        (* the graph store *)
  entity_chain : string -> result (list string);     (* question to names *)
  chat : string -> string -> result string;          (* context, question *)
  tx_run_other : string -> result (list Cypher.Row);
    (* the store's answer to [get_graph_data]'s text when the entity
       spliced between the quotes does not stay a string literal *)
  write_html : string -> list (nat * string) -> list RelEntry -> result unit
    (* [net.write_html(filename)] for the nodes and edges added: done, or
       the exception of pyvis or of the file system *)
}.

(** ** [graph_rag_structured.py] *)

(** ["\n".join(row["output"] for row in response)]: a null output is
    [None], which [join] refuses with a [TypeError]. *)
Fixpoint outputs_from (i : nat) (rows : list (option string))
    : result (list string) :=
  match rows with
  | [] => Returned []
  | None :: _ =>
      Raised ("sequence item " +++ str_of_nat i
                +++ ": expected str instance, NoneType found")
  | Some s :: r =>
      match outputs_from (S i) r with
      | Returned l => Returned (s :: l)
      | Raised e => Raised e
      end
  end.

Definition join_outputs (rows : list (option string)) : result string :=
  match outputs_from 0 rows with
  | Returned l => Returned (join_lines l)
  | Raised e => Raised e
  end.

(** The first half of the loop body: the relationship lines or the
    line that says there are none. *)
Definition relationship_lines (w : World) (entity : string) : M string :=
  response <- call (EvRelationships entity)
                (Returned (Cypher.relationships_query (kg w) entity)) ;;
  match response with
  | [] => ret ("No relationships found for entity: " +++ entity +++ nl)
  | _ :: _ =>
      match join_outputs response with
      | Returned s => ret (s +++ nl)
      | Raised e => raise e
      end
  end.

(** The second half: [gp and gp[0].get("grandparent_id")] is true for a
    first row that holds a non-empty string. *)
Definition grandparent_line (w : World) (entity : string) : M string :=
  gp <- call (EvGrandparent entity)
          (Returned (Cypher.grandparent_query (kg w) entity)) ;;
  match gp with
  | Some (String c s) :: _ =>
      ret ("Grandparent id of " +++ entity +++ ": " +++ String c s +++ nl)
  | _ => ret ("No grandparent found for " +++ entity +++ nl)
  end.

(** One turn of [for entity in entities.names]. *)
Definition retrieve_entity (w : World) (entity : string) : M string :=
  lines <- relationship_lines w entity ;;
  gp <- grandparent_line w entity ;;
  ret (lines +++ gp).

(** The loop, [result] being the text built so far. *)
Fixpoint retrieve_entities (w : World) (names : list string)
    (result : string) : M string :=
  match names with
  | [] => ret result
  | entity :: rest =>
      part <- retrieve_entity w entity ;;
      retrieve_entities w rest (result +++ part)
  end.

Definition structured_retriever (w : World) (question : string) : M string :=
  names <- call (EvExtract question) (entity_chain w question) ;;
  retrieve_entities w names "".

Definition retriever (w : World) (question : string) : M string :=
  structured_data <- structured_retriever w question ;;
  ret ("Structured data:" +++ nl +++ structured_data +++ nl +++ "    ").

(** [chain.invoke({"question": question})]. *)
Definition chain_invoke (w : World) (question : string) : M string :=
  context <- retriever w question ;;
  call (EvChat context question) (chat w context question).

(** ** [app.py] *)

(** [node_map]: a dict, kept in insertion order. *)
Definition NodeMap : Type := list (string * nat).

Fixpoint dict_get (k : string) (d : NodeMap) : option nat :=
  match d with
  | [] => None
  | (k', v) :: r => if String.eqb k k' then Some v else dict_get k r
  end.

Definition dict_mem (k : string) (d : NodeMap) : bool :=
  match dict_get k d with Some _ => true | None => false end.

(** [s.get("id", s.element_id)]. *)
Definition node_key (n : Node) : string :=
  match n_id n with
  | Some i => i
  | None => element_id n
  end.

(** [if key not in node_map: node_map[key] = idx; idx += 1]. *)
Definition add_node (key : string) (st : NodeMap * nat) : NodeMap * nat :=
  let '(node_map, idx) := st in
  if dict_mem key node_map then st else (node_map ++ [(key, idx)], S idx).

(** The body of [for record in result]. *)
Definition index_record (st : NodeMap * list RelEntry * nat)
    (record : Cypher.Row) : result (NodeMap * list RelEntry * nat) :=
  let '(node_map, rels, idx) := st in
  let s_id := node_key (Cypher.source record) in
  let t_id := node_key (Cypher.target record) in
  let '(node_map, idx) := add_node t_id (add_node s_id (node_map, idx)) in
  match dict_get s_id node_map, dict_get t_id node_map with
  | Some s, Some t =>
      Returned (node_map, rels ++ [mkRelEntry s t (Cypher.row_type record)],
                idx)
  | None, _ => Raised ("'" +++ s_id +++ "'")
  | _, None => Raised ("'" +++ t_id +++ "'")
  end.

Fixpoint index_records (st : NodeMap * list RelEntry * nat)
    (records : list Cypher.Row) : result (NodeMap * list RelEntry * nat) :=
  match records with
  | [] => Returned st
  | record :: rest =>
      match index_record st record with
      | Returned st' => index_records st' rest
      | Raised e => Raised e
      end
  end.

Fixpoint has_char (c : ascii) (s : string) : bool :=
  match s with
  | EmptyString => false
  | String c' r => Ascii.eqb c c' || has_char c r
  end.

(** The f-string puts [entity] between single quotes in the query text.
    Without a quote or a backslash in it, the text is the query with the
    literal [entity]. *)
Definition plain_literal (entity : string) : bool :=
  negb (has_char "'" entity) && negb (has_char "\" entity).

Definition tx_run (w : World) (entity : string) : result (list Cypher.Row) :=
  if plain_literal entity
  then Returned (Cypher.graph_data_query (kg w) entity)
  else tx_run_other w entity.

Definition get_graph_data (w : World) (entity : string)
    : M (NodeMap * list RelEntry) :=
  records <- call (EvGraphData entity) (tx_run w entity) ;;
  match index_records ([], [], 0) records with
  | Returned (node_map, rels, _) => ret (node_map, rels)
  | Raised e => raise e
  end.

(** [sorted(node_map.items(), key=lambda x: x[1])], as pyvis nodes
    [(i, name)]. *)
Definition net_nodes_of (node_map : NodeMap) : list (nat * string) :=
  map (fun kv => (snd kv, fst kv))
    (sort_by (fun a b => snd a <=? snd b) node_map).

(** [ents.names[0] if ents.names else "Youtube"]. *)
Definition primary_entity (names : list string) : string :=
  match names with
  | entity :: _ => entity
  | [] => "Youtube"
  end.

(** The three outputs: the file name, the status text and whether the
    button is shown ([gr.update(visible=...)]). *)
Definition GraphOutput : Type := option string * string * bool.

Definition generate_graph_visualization (w : World) (question : string)
    : M GraphOutput :=
  try_except
    (names <- call (EvExtract question) (entity_chain w question) ;;
     let entity := primary_entity names in
     ' (node_map, rels) <- get_graph_data w entity ;;
     match node_map with
     | [] =>
         ret (None, "❌ No graph data found for entity: " +++ entity, false)
     | _ :: _ =>
         let filename :=
           replace_char " " "_" (toLower entity) +++ "_graph.html" in
         _ <- call (EvWriteHtml filename (net_nodes_of node_map) rels)
                (write_html w filename (net_nodes_of node_map) rels) ;;
         ret (Some filename,
              "✅ Graph generated for entity: **" +++ entity
                +++ "** | Nodes: " +++ str_of_nat (List.length node_map)
                +++ " | Relationships: " +++ str_of_nat (List.length rels),
              true)
     end)
    (fun e => ret (None, "❌ Error generating graph: " +++ e, false)).

(** The six outputs of the handler: chat history, the cleared input box,
    the graph file, the graph status, the button and the debug text. *)
Definition QueryOutput : Type :=
  list (string * string) * string * option string * string * bool * string.

Definition process_unified_query (w : World) (question : string)
    (chat_history : list (string * string)) : M QueryOutput :=
  match strip question with
  | EmptyString =>
      ret (chat_history, "", None, "⚠️ Please enter a question", false, "")
  | String _ _ =>
      (* try: chain.invoke, append  except: append the error, return *)
      outcome <- attempt (chain_invoke w question) ;;
      match outcome with
      | Raised e =>
          let error_msg := "❌ Error: " +++ e in
          ret (chat_history ++ [(question, error_msg)], "", None, error_msg,
               false, "")
      | Returned answer =>
          let chat_history := chat_history ++ [(question, answer)] in
          ' (filename, graph_status, button) <-
            generate_graph_visualization w question ;;
          ret (chat_history, "", filename, graph_status, button, "")
      end
  end.

(** * The vocabulary of the statements *)

(** How many elements of [l] are [eqb]-equal to [x]. *)
Definition occurrences {A : Type} (eqb : A -> A -> bool) (x : A)
    (l : list A) : nat :=
  List.length (filter (eqb x) l).

(** [p] is a chain of relationships that starts at [cur]. *)
Fixpoint walk_from (cur : Node) (p : list Relationship) : bool :=
  match p with
  | [] => true
  | r :: p' => Cypher.same_node (startNode r) cur && walk_from (endNode r) p'
  end.

(** The node in which the chain [p] from [cur] ends. *)
Fixpoint walk_end (cur : Node) (p : list Relationship) : Node :=
  match p with
  | [] => cur
  | r :: p' => walk_end (endNode r) p'
  end.

Definition ids (p : list Relationship) : list string := map rel_element_id p.

(** No relationship of the store starts or ends in [n]. *)
Definition isolated (g : Graph) (n : Node) : Prop :=
  forall r, In r (relationships g) ->
    Cypher.same_node (startNode r) n = false
    /\ Cypher.same_node (endNode r) n = false.

(** The indices the relationship list mentions, in order. *)
Definition endpoints (rels : list RelEntry) : list nat :=
  flat_map (fun en => [e_source en; e_target en]) rels.

(** [en] is the entry built for [record] under the node map [nm]. *)
Definition indexes (nm : NodeMap) (record : Cypher.Row) (en : RelEntry)
    : Prop :=
  dict_get (node_key (Cypher.source record)) nm = Some (e_source en)
  /\ dict_get (node_key (Cypher.target record)) nm = Some (e_target en)
  /\ caption en = Cypher.row_type record.

Definition index_inv (st : NodeMap * list RelEntry * nat) : Prop :=
  let '(nm, rels, idx) := st in
  map snd nm = seq 0 idx
  /\ NoDup (map fst nm)
  /\ distinct Nat.eqb (endpoints rels) = seq 0 idx.

(** The world [w] with an extractor that answers [names]. *)
Definition with_names (w : World) (names : list string) : World :=
  mkWorld (kg w) (fun _ => Returned names) (chat w) (tx_run_other w)
    (write_html w).

(** The texts of the entities put end to end, in order; the first
    exception ends the request. *)
Fixpoint concat_texts (parts : list (result string)) : result string :=
  match parts with
  | [] => Returned ""
  | Raised m :: _ => Raised m
  | Returned s :: rest =>
      match concat_texts rest with
      | Returned t => Returned (s +++ t)
      | Raised m => Raised m
      end
  end.

(** The network that was handed to [write_html], if one was. *)
Fixpoint written_net (tr : list Event)
    : option (list (nat * string) * list RelEntry) :=
  match tr with
  | [] => None
  | EvWriteHtml _ net_nodes net_edges :: _ => Some (net_nodes, net_edges)
  | _ :: rest => written_net rest
  end.

Definition name_of (net_nodes : list (nat * string)) (i : nat) : string :=
  match find (fun p => fst p =? i) net_nodes with
  | Some p => snd p
  | None => ""
  end.

(** The relationships of a network with node names for indices: what is
    left of an index form when the numbering is forgotten. *)
Definition named_edges (net : list (nat * string) * list RelEntry)
    : list (string * string * string) :=
  map (fun en =>
         (name_of (fst net) (e_source en), caption en,
          name_of (fst net) (e_target en)))
    (snd net).

(** The index form the visualization builds when the extractor answers
    [names]. *)
Definition index_form (w : World) (names : list string)
    : list (string * string * string) :=
  match written_net
          (snd (generate_graph_visualization (with_names w names) "q" []))
  with
  | Some net => named_edges net
  | None => []
  end.

(** The entities for which the graph-data query was sent. *)
Definition graph_data_entities (tr : list Event) : list string :=
  flat_map (fun ev => match ev with EvGraphData e => [e] | _ => [] end) tr.

(** The entities for which the relationship query was sent. *)
Definition relationship_entities (tr : list Event) : list string :=
  flat_map (fun ev => match ev with EvRelationships e => [e] | _ => [] end)
    tr.

(** Every end node of a relationship of the store has an [id]. *)
Definition ids_present (g : Graph) : Prop :=
  forall r, In r (relationships g) ->
    n_id (startNode r) <> None /\ n_id (endNode r) <> None.

(** The question is empty or made of white space only. *)
Definition blank (question : string) : bool :=
  forallb is_space (list_ascii_of_string question).

(** * Scenarios *)

Module Scenario.

Definition node_A : Node := mkNode "n0" (Some "A").
Definition node_B : Node := mkNode "n1" (Some "B").
Definition node_C : Node := mkNode "n2" (Some "C").

Definition works_for : Relationship := mkRel "r0" node_A "WORKS_FOR" node_B.
Definition located_in : Relationship :=
  mkRel "r1" node_B "LOCATED_IN" node_C.

Definition graph : Graph :=
  mkGraph [node_A; node_B; node_C] [works_for; located_in].

(** A world over [g] whose extractor answers [names] to every question,
    whose language model echoes its context and in which every file can
    be written. *)
Definition world (g : Graph) (names : list string) : World :=
  mkWorld g (fun _ => Returned names) (fun context _ => Returned context)
    (fun _ => Raised "SyntaxError") (fun _ _ _ => Returned tt).

End Scenario.

Module CaseScenario.

Definition acme : Node := mkNode "n0" (Some "Acme").
Definition paris : Node := mkNode "n1" (Some "Paris").
Definition france : Node := mkNode "n2" (Some "France").

Definition graph : Graph :=
  mkGraph [acme; paris; france]
    [mkRel "r0" acme "LOCATED_IN" paris; mkRel "r1" paris "PART_OF" france].

End CaseScenario.

Module CycleScenario.

Definition a : Node := mkNode "n0" (Some "A").
Definition b : Node := mkNode "n1" (Some "B").
Definition c : Node := mkNode "n2" (Some "C").

Definition ab : Relationship := mkRel "r0" a "KNOWS" b.
Definition bc : Relationship := mkRel "r1" b "KNOWS" c.
Definition cb : Relationship := mkRel "r2" c "KNOWS" b.
(** A second relationship from B to C of the same type. *)
Definition bc' : Relationship := mkRel "r3" b "KNOWS" c.

Definition graph : Graph := mkGraph [a; b; c] [ab; bc; cb; bc'].

End CycleScenario.

Module GhostScenario.

(** One node, no relationship. *)
Definition lonely : Graph := mkGraph [mkNode "n0" (Some "Ada")] [].

End GhostScenario.

Module OrderScenario.

Definition bob : Node := mkNode "n0" (Some "Bob").
Definition acme : Node := mkNode "n1" (Some "Acme").
Definition paris : Node := mkNode "n2" (Some "Paris").

Definition works_for : Relationship := mkRel "r0" bob "WORKS_FOR" acme.
Definition located_in : Relationship := mkRel "r1" acme "LOCATED_IN" paris.

(** The same store, its relationships listed in either order. *)
Definition graph : Graph :=
  mkGraph [bob; acme; paris] [works_for; located_in].
Definition graph' : Graph :=
  mkGraph [bob; acme; paris] [located_in; works_for].

End OrderScenario.

Module TwoAnchors.

Definition a : Node := mkNode "n0" (Some "A").
Definition b : Node := mkNode "n1" (Some "B").
Definition c : Node := mkNode "n2" (Some "C").
Definition d : Node := mkNode "n3" (Some "D").

(** Two anchors that share no edge. *)
Definition graph : Graph :=
  mkGraph [a; b; c; d] [mkRel "r0" a "OWNS" b; mkRel "r1" c "OWNS" d].

Definition world : World := Scenario.world graph [].

End TwoAnchors.

Module FailingExtractor.

(** The extractor fails on every question. *)
Definition world : World :=
  mkWorld Scenario.graph (fun _ => Raised "rate limit exceeded")
    (fun context _ => Returned context) (fun _ => Raised "SyntaxError")
    (fun _ _ _ => Returned tt).

End FailingExtractor.

(** * Further vocabulary *)

(** The relationship [r] taken in the other direction. *)
Definition flip (r : Relationship) : Relationship :=
  mkRel (rel_element_id r) (endNode r) (rel_type r) (startNode r).

(** The end nodes of the relationships of the store. *)
Definition end_nodes (g : Graph) : list Node :=
  flat_map (fun r => [startNode r; endNode r]) (relationships g).

(** A store holds one record per node identity. *)
Definition nodes_consistent (g : Graph) : Prop :=
  forall a b, In a (end_nodes g) -> In b (end_nodes g) ->
    element_id a = element_id b -> a = b.

(** The rendering of a record of the graph-data query, as the text query
    renders the relationship it comes from. *)
Definition render_row (row : Cypher.Row) : option string :=
  match n_id (Cypher.source row), n_id (Cypher.target row) with
  | Some s, Some t => Some (s +++ " -[" +++ Cypher.row_type row +++ "]-> " +++ t)
  | _, _ => None
  end.

(** The order of [ORDER BY], as a relation. *)
Definition value_le (a b : option string) : Prop := Cypher.value_leb a b = true.

Module NoIdScenario.

Definition a : Node := mkNode "n0" (Some "A").
(** A node that carries no [id] property. *)
Definition anonymous : Node := mkNode "n1" None.

Definition graph : Graph :=
  mkGraph [a; anonymous] [mkRel "r0" a "MENTIONS" anonymous].

End NoIdScenario.

(** An upper-case ASCII letter. *)
Definition is_upper (c : ascii) : bool :=
  let n := nat_of_ascii c in (65 <=? n) && (n <=? 90).

Module FailingChat.

(** The language model fails on every request. *)
Definition world : World :=
  mkWorld Scenario.graph (fun _ => Returned ["A"])
    (fun _ _ => Raised "model overloaded") (fun _ => Raised "SyntaxError")
    (fun _ _ _ => Returned tt).

End FailingChat.

(** * The debug log and the browser ([app.py]) *)

(** The two globals of [app.py], and the console they are echoed to. *)
Record DebugState := mkDebug {
  DEBUG_MODE : bool;
  debug_logs : list string;
  console : list string       (* the messages printed, oldest first *)
}.

(** [log_debug(message)]. *)
Definition log_debug (message : string) (st : DebugState) : DebugState :=
  if DEBUG_MODE st
  then mkDebug (DEBUG_MODE st) (debug_logs st ++ [message])
         (console st ++ [message])
  else st.

(** [get_debug_logs()]. *)
Definition get_debug_logs (st : DebugState) : string :=
  match debug_logs st with
  | [] => ""
  | _ :: _ => join_lines (debug_logs st)
  end.

(** [clear_debug_logs()]. *)
Definition clear_debug_logs (st : DebugState) : DebugState :=
  mkDebug (DEBUG_MODE st) [] (console st).

(** [toggle_debug_mode(current_status)]: the new status text, whether
    the debug panel is visible, and the new state.  The argument is not
    used. *)
Definition toggle_debug_mode (current_status : string) (st : DebugState)
    : string * bool * DebugState :=
  let mode := negb (DEBUG_MODE st) in
  (if mode then "🔍 Debug Mode: ON" else "💡 Debug Mode: OFF", mode,
   mkDebug mode (debug_logs st) (console st)).

(** [clear_all()]. *)
Definition clear_all (st : DebugState) : QueryOutput * DebugState :=
  (([], "", None, "Ready to process your question...", false, ""),
   clear_debug_logs st).

(** What [open_graph_in_browser] relies on. *)
Record Desktop := mkDesktop {
  abspath : string -> result string;            (* os.path.abspath *)
  webbrowser_open : string -> result bool       (* webbrowser.open *)
}.

(** [open_graph_in_browser(filename)]: the text returned, the addresses
    handed to the browser, and the debug state.  An empty file name is
    false in Python, as [None] is. *)
Definition open_graph_in_browser (d : Desktop) (filename : option string)
    (st : DebugState) : string * list string * DebugState :=
  match filename with
  | Some (String c s) =>
      match abspath d (String c s) with
      | Raised e =>
          let error_msg := "❌ Error opening graph: " +++ e in
          (error_msg, [], log_debug error_msg st)
      | Returned path =>
          match webbrowser_open d ("file://" +++ path) with
          | Raised e =>
              let error_msg := "❌ Error opening graph: " +++ e in
              (error_msg, ["file://" +++ path], log_debug error_msg st)
          | Returned _ =>
              ("🌐 Graph opened in new browser tab!", ["file://" +++ path],
               log_debug ("🌐 Opening graph in browser: " +++ path) st)
          end
      end
  | _ => ("❌ No graph file to open", [], st)
  end.

(** * Loading the store ([graph_rag_structured.py]) *)

(** What [setup_graph_database] finds around it. *)
Record SetupEnv := mkSetupEnv {
  pickle_exists : bool;                 (* os.path.exists(pickle_path) *)
  pickle_load : result nat;             (* len(pickle.load(f)) *)
  count_documents : result (list nat);  (* doc_count of each row *)
  add_graph_documents : result unit;    (* kg.add_graph_documents(...) *)
  elapsed : string                      (* the duration, two decimals *)
}.

Inductive SetupEvent : Type :=
| SPrint (message : string)
| SPickleLoad
| SCountQuery
| SAddGraphDocuments.

(** Step 4 of [setup_graph_database], after the events [tr]. *)
Definition load_graph_data (env : SetupEnv) (tr : list SetupEvent)
    : result bool * list SetupEvent :=
  let tr :=
    tr ++ [SPrint "📥 Loading graph data into Neo4j (this may take a moment)...";
           SAddGraphDocuments] in
  match add_graph_documents env with
  | Returned _ =>
      (Returned true,
       tr ++ [SPrint ("✅ Successfully loaded graph data in " +++ elapsed env
                        +++ " seconds.")])
  | Raised e =>
      (Returned false, tr ++ [SPrint ("❌ Error loading graph data: " +++ e)])
  end.

Definition setup_graph_database (env : SetupEnv)
    : result bool * list SetupEvent :=
  if negb (pickle_exists env)
  then (Returned false,
        [SPrint
           "❌ Pickle file not found. Please run the document processing first."])
  else
    let tr := [SPrint "📂 Loading graph documents from pickle..."; SPickleLoad] in
    match pickle_load env with
    | Raised e => (Raised e, tr)
    | Returned n =>
        let tr :=
          tr ++ [SPrint ("✅ Loaded " +++ str_of_nat n +++ " graph documents.");
                 SCountQuery] in
        match count_documents env with
        | Raised e =>
            load_graph_data env
              (tr ++ [SPrint ("⚠️  Error checking existing data: " +++ e)])
        | Returned rows =>
            let existing_docs :=
              match rows with doc_count :: _ => doc_count | [] => 0 end in
            if 0 <? existing_docs
            then (Returned true,
                  tr ++ [SPrint ("✅ Found " +++ str_of_nat existing_docs
                                   +++ " existing Document nodes. "
                                   +++ "Skipping graph loading.")])
            else load_graph_data env tr
        end
    end.

(** * The command-line loop ([graph_rag_structured.py]) *)

(** A computation that also writes to the standard output: the trace
    and the texts written so far in, the outcome and both out. *)
Definition P (A : Type) : Type :=
  list Event -> list string -> result A * list Event * list string.

Definition pret {A : Type} (a : A) : P A := fun tr out => (Returned a, tr, out).

Definition pbind {A B : Type} (m : P A) (f : A -> P B) : P B :=
  fun tr out =>
    match m tr out with
    | (Returned a, tr', out') => f a tr' out'
    | (Raised e, tr', out') => (Raised e, tr', out')
    end.

(** A computation that writes nothing. *)
Definition lift {A : Type} (m : M A) : P A :=
  fun tr out => let '(r, tr') := m tr in (r, tr', out).

(** [print(message)]. *)
Definition print (message : string) : P unit :=
  fun tr out => (Returned tt, tr, out ++ [message +++ nl]).

(** [if DEBUG_MODE: print(message)]. *)
Definition debug_print (debug : bool) (message : string) : P unit :=
  if debug then print message else pret tt.

Notation "x <~ m ;; k" := (pbind m (fun x => k))
  (at level 61, m at next level, right associativity).

(** [structured_retriever], [retriever] and [chain] with the flag
    [DEBUG_MODE] and what they print under it. *)
Fixpoint retrieve_entities_debug (debug : bool) (w : World)
    (names : list string) (result : string) : P string :=
  match names with
  | [] => pret result
  | entity :: rest =>
      _ <~ debug_print debug
             ("Getting relationships for entity: " +++ entity) ;;
      part <~ lift (retrieve_entity w entity) ;;
      retrieve_entities_debug debug w rest (result +++ part)
  end.

Definition structured_retriever_debug (debug : bool) (w : World)
    (question : string) : P string :=
  names <~ lift (call (EvExtract question) (entity_chain w question)) ;;
  retrieve_entities_debug debug w names "".

Definition retriever_debug (debug : bool) (w : World) (question : string)
    : P string :=
  _ <~ debug_print debug ("Search query: " +++ question) ;;
  structured_data <~ structured_retriever_debug debug w question ;;
  let final_data :=
    "Structured data:" +++ nl +++ structured_data +++ nl +++ "    " in
  _ <~ debug_print debug
         (nl +++ "Final Data (Graph Only)::: ==>" +++ final_data) ;;
  pret final_data.

Definition chain_invoke_debug (debug : bool) (w : World) (question : string)
    : P string :=
  context <~ retriever_debug debug w question ;;
  lift (call (EvChat context question) (chat w context question)).

(** ["-" * n]. *)
Definition dashes (n : nat) : string :=
  string_of_list_ascii (repeat "-"%char n).

(** [user_question.lower() in ('quit', 'exit', 'q')]. *)
Definition is_quit (user_question : string) : bool :=
  existsb (String.eqb (toLower user_question)) ["quit"; "exit"; "q"].

(** The [while True] loop of [run_interactive_chat].  [inputs] are the
    lines that [input] will return, one per call; when they run out,
    [input] raises [EOFError].  The result holds the final value of
    [DEBUG_MODE]. *)
Fixpoint chat_loop (w : World) (inputs : list string) (debug : bool)
    (tr : list Event) (out : list string)
    : result unit * bool * list Event * list string :=
  let out := out ++ ["You: "] in
  match inputs with
  | [] => (Raised "EOF when reading a line", debug, tr, out)
  | line :: rest =>
      let user_question := strip line in
      if is_quit user_question
      then (Returned tt, debug, tr, out ++ ["👋 Goodbye!" +++ nl])
      else if String.eqb (toLower user_question) "verbose"
      then
        let debug := negb debug in
        chat_loop w rest debug tr
          (out ++ [("🔄 Verbose mode: " +++ (if debug then "ON" else "OFF"))
                     +++ nl])
      else
        match user_question with
        | EmptyString => chat_loop w rest debug tr out
        | String _ _ =>
            let out :=
              if debug then out else out ++ ["🔄 Processing..." +++ nl] in
            match chain_invoke_debug debug w user_question tr out with
            | (Returned result, tr, out) =>
                let out :=
                  if debug
                  then out ++ [(nl +++ "🤖 Final Answer:") +++ nl;
                               dashes 40 +++ nl]
                  else out in
                let out := out ++ [result +++ nl; nl] in
                let out := if debug then out else out ++ [dashes 30 +++ nl] in
                chat_loop w rest debug tr out
            | (Raised e, tr, out) =>
                chat_loop w rest debug tr (out ++ [("❌ Error: " +++ e) +++ nl])
            end
        end
  end.

(** [run_interactive_chat(verbose)]. *)
Definition run_interactive_chat (w : World) (verbose : bool)
    (inputs : list string) : result unit * bool * list Event * list string :=
  chat_loop w inputs verbose []
    [ "🤖 Hybrid RAG Chat System" +++ nl;
      (if verbose
       then "🔍 Verbose mode: ON (showing debug information)"
       else "💡 Clean mode: ON (minimal output)") +++ nl;
      ("Type 'quit' to exit, 'verbose' to toggle debug mode" +++ nl) +++ nl ].

(** The questions that were handed to the extractor. *)
Definition extracted (tr : list Event) : list string :=
  flat_map (fun ev => match ev with EvExtract q => [q] | _ => [] end) tr.

(** The questions among the lines typed: the lines before the first
    quit command that, stripped, are neither empty nor "verbose". *)
Fixpoint questions_typed (inputs : list string) : list string :=
  match inputs with
  | [] => []
  | line :: rest =>
      if is_quit (strip line) then []
      else if String.eqb (toLower (strip line)) "verbose"
           then questions_typed rest
           else match strip line with
                | EmptyString => questions_typed rest
                | String _ _ => strip line :: questions_typed rest
                end
  end.

Module SlashScenario.

Definition acdc : Node := mkNode "n0" (Some "AC/DC").
Definition rock : Node := mkNode "n1" (Some "Rock").

Definition graph : Graph :=
  mkGraph [acdc; rock] [mkRel "r0" acdc "PLAYS" rock].

(** A file whose name holds a slash is to be written in a directory, and
    there is none. *)
Definition world : World :=
  mkWorld graph (fun _ => Returned ["AC/DC"])
    (fun context _ => Returned context) (fun _ => Raised "SyntaxError")
    (fun filename _ _ =>
       if has_char "/" filename
       then Raised ("[Errno 2] No such file or directory: '" +++ filename
                      +++ "'")
       else Returned tt).

End SlashScenario.

(** * The text of one entity and the name it repeats *)




Module InjectionScenario.

(** The query of [get_graph_data] under another [WHERE] clause: the
    anchors are the nodes that [anchor] keeps, the rest of the text being
    the same. *)
Definition graph_data_where (g : Graph) (anchor : Node -> bool)
    : list Cypher.Row :=
  distinct Cypher.row_eqb
    (map Cypher.row_of
       (Cypher.distinct_rels (Cypher.paths_out g) (filter anchor (nodes g)))
       ++ map Cypher.row_of
            (Cypher.distinct_rels (Cypher.paths_in g)
               (filter anchor (nodes g)))).

(** Two names that are equal after case folding.  Put between the
    quotes of [toLower('{entity}')] by the f-string, the first makes the
    clause [WHERE toLower(n.id)=toLower('x') OR n.id=('Acme')] and the
    second [WHERE toLower(n.id)=toLower('x') OR n.id=('ACME')]. *)
Definition upper_name : string := "x') OR n.id=('ACME".
Definition mixed_name : string := "x') OR n.id=('Acme".

(** [toLower(n.id) = toLower('x') OR n.id = (literal)]; a node without
    [id] gives null, which the filter drops. *)
Definition where_or (literal : string) (n : Node) : bool :=
  match n_id n with
  | Some i => String.eqb (toLower i) (toLower "x") || String.eqb i literal
  | None => false
  end.

(** The store of [CaseScenario], answering the two spliced texts as
    their clauses read. *)
Definition world : World :=
  mkWorld CaseScenario.graph (fun _ => Returned [mixed_name])
    (fun context _ => Returned context)
    (fun entity =>
       if String.eqb entity mixed_name
       then Returned (graph_data_where CaseScenario.graph (where_or "Acme"))
       else if String.eqb entity upper_name
       then Returned (graph_data_where CaseScenario.graph (where_or "ACME"))
       else Raised "SyntaxError")
    (fun _ _ _ => Returned tt).

End InjectionScenario.

(** * Properties *)

(** ** Lists *)

Lemma filter_filter {A : Type} (f g : A -> bool) (l : list A) :
  filter f (filter g l) = filter (fun y => f y && g y) l.
Proof.
  induction l as [|a l IH]; simpl; [reflexivity|].
  destruct (g a); simpl; destruct (f a); simpl; now rewrite ?IH.
Qed.

Lemma distinct_incl {A : Type} (eqb : A -> A -> bool) (l : list A) (x : A) :
  In x (distinct eqb l) -> In x l.
Proof.
  revert x; induction l as [|a l IH]; simpl; intros x H; [exact H|].
  destruct H as [H|H]; [now left|].
  apply filter_In in H. right. apply IH, H.
Qed.

Lemma distinct_nil {A : Type} (eqb : A -> A -> bool) (l : list A) :
  distinct eqb l = [] <-> l = [].
Proof. destruct l; simpl; split; intro H; congruence. Qed.

Lemma distinct_app {A : Type} (eqb : A -> A -> bool) (l l' : list A) :
  distinct eqb (l ++ l')
  = distinct eqb l
      ++ filter (fun y => negb (existsb (fun x => eqb x y) l))
           (distinct eqb l').
Proof.
  induction l as [|a l IH]; simpl.
  - symmetry. apply forallb_filter_id. now apply forallb_forall.
  - f_equal. rewrite IH, filter_app, filter_filter. f_equal.
    apply filter_ext. intro y. now rewrite negb_orb.
Qed.

Section DistinctEquivalence.

Context {A : Type} (eqb : A -> A -> bool).
Hypothesis eqb_sym : forall x y, eqb x y = eqb y x.
Hypothesis eqb_trans :
  forall x y z, eqb x y = true -> eqb y z = true -> eqb x z = true.

Lemma occurrences_distinct (x : A) (l : list A) :
  occurrences eqb x (distinct eqb l)
  = if existsb (eqb x) l then 1 else 0.
Proof.
  unfold occurrences. induction l as [|a l IH]; simpl; [reflexivity|].
  rewrite filter_filter. destruct (eqb x a) eqn:Exa; simpl.
  - f_equal. apply List.length_zero_iff_nil.
    rewrite <- (filter_ext_in (fun _ => false)).
    + clear. induction (distinct eqb l); simpl; auto.
    + intros y _. destruct (eqb x y) eqn:Exy; simpl; [|reflexivity].
      assert (eqb a y = true) as ->; [|reflexivity].
      apply eqb_trans with x; [now rewrite eqb_sym|exact Exy].
  - rewrite <- IH. f_equal. apply filter_ext. intro y.
    destruct (eqb x y) eqn:Exy; simpl; [|reflexivity].
    destruct (eqb a y) eqn:Eay; simpl; [|reflexivity].
    rewrite (eqb_trans x y a) in Exa; [discriminate|exact Exy|].
    now rewrite eqb_sym.
Qed.

Hypothesis eqb_refl : forall x, eqb x x = true.

Lemma distinct_once (x : A) (l : list A) :
  In x l -> occurrences eqb x (distinct eqb l) = 1.
Proof.
  intro H. rewrite occurrences_distinct.
  assert (existsb (eqb x) l = true) as ->; [|reflexivity].
  apply existsb_exists. exists x. split; [exact H|apply eqb_refl].
Qed.

End DistinctEquivalence.

Lemma insert_sorted_perm {A : Type} (leb : A -> A -> bool) (x : A)
    (l : list A) : Permutation (insert_sorted leb x l) (x :: l).
Proof.
  induction l as [|y l IH]; simpl; [reflexivity|].
  destruct (leb x y); [reflexivity|].
  rewrite IH. apply perm_swap.
Qed.

Lemma sort_by_perm {A : Type} (leb : A -> A -> bool) (l : list A) :
  Permutation (sort_by leb l) l.
Proof.
  induction l as [|x l IH]; simpl; [constructor|].
  rewrite insert_sorted_perm. now constructor.
Qed.

Lemma Permutation_three {A : Type} (a b c : A) (l : list A) :
  Permutation l [a; b; c] ->
  l = [a; b; c] \/ l = [a; c; b] \/ l = [b; a; c]
  \/ l = [b; c; a] \/ l = [c; a; b] \/ l = [c; b; a].
Proof.
  intro H.
  destruct (Permutation_vs_cons_inv H) as (l1 & l2 & ->).
  apply Permutation_sym, Permutation_cons_app_inv, Permutation_sym in H.
  apply Permutation_sym, Permutation_length_2_inv in H.
  destruct l1 as [|x [|y [|z l1]]]; simpl in H; destruct H as [H|H];
    inversion H; subst; simpl; try discriminate; auto 10.
Qed.

Lemma append_assoc (a b c : string) : (a +++ b) +++ c = a +++ (b +++ c).
Proof. induction a as [|x a IH]; simpl; [reflexivity|now rewrite IH]. Qed.

Lemma append_nil_r (a : string) : a +++ "" = a.
Proof. induction a as [|x a IH]; simpl; [reflexivity|now rewrite IH]. Qed.

(** ** The end-to-end scenario *)

(** C1. In the graph with the nodes A, B, C and exactly the edges
    A -[WORKS_FOR]-> B and B -[LOCATED_IN]-> C, whatever the order in which
    the store lists them, the text retrieved for the single entity "A" is
    the line "A -[WORKS_FOR]-> B", the line "B -[LOCATED_IN]-> C" and the
    line "Grandparent id of A: C"; both relationship lines come from the
    outbound traversal from A (the inbound one finds nothing) and they are
    in lexicographic order. *)
Theorem C1_scenario_text (w : World) (question : string) :
  Permutation (nodes (kg w))
    [Scenario.node_A; Scenario.node_B; Scenario.node_C] ->
  Permutation (relationships (kg w))
    [Scenario.works_for; Scenario.located_in] ->
  entity_chain w question = Returned ["A"] ->
  structured_retriever w question []
  = (Returned ("A -[WORKS_FOR]-> B" +++ nl +++ "B -[LOCATED_IN]-> C" +++ nl
                 +++ "Grandparent id of A: C" +++ nl),
     [EvExtract question; EvRelationships "A"; EvGrandparent "A"])
  /\ map Cypher.render (Cypher.rels_out (kg w) "A")
     = [Some "A -[WORKS_FOR]-> B"; Some "B -[LOCATED_IN]-> C"]
  /\ Cypher.rels_in (kg w) "A" = []
  /\ String.leb "A -[WORKS_FOR]-> B" "B -[LOCATED_IN]-> C" = true.
Proof.
  destruct w as [[ns rs] extract llm other]; simpl.
  intros Hn Hr He.
  unfold structured_retriever, bind, call; simpl. rewrite He.
  apply Permutation_sym, Permutation_length_2_inv in Hr.
  apply Permutation_three in Hn.
  destruct Hr as [-> | ->];
    destruct Hn as [-> | [-> | [-> | [-> | [-> | ->]]]]];
    vm_compute; repeat split.
Qed.

Lemma C1_scenario_text_witness :
  structured_retriever (Scenario.world Scenario.graph ["A"]) "Where is A?" []
  = (Returned ("A -[WORKS_FOR]-> B" +++ nl +++ "B -[LOCATED_IN]-> C" +++ nl
                 +++ "Grandparent id of A: C" +++ nl),
     [EvExtract "Where is A?"; EvRelationships "A"; EvGrandparent "A"]).
Proof.
  apply (C1_scenario_text (Scenario.world Scenario.graph ["A"]) "Where is A?");
    simpl; [apply Permutation_refl | apply Permutation_refl | reflexivity].
Defined.

(** ** Case-insensitive node resolution *)











(** ** The unbounded traversal *)

Lemma walk_from_app (n : Node) (a b : list Relationship) :
  walk_from n (a ++ b) = walk_from n a && walk_from (walk_end n a) b.
Proof.
  revert n; induction a as [|r a IH]; intro n; simpl; [reflexivity|].
  now rewrite IH, andb_assoc.
Qed.

Lemma walk_end_app (n : Node) (a b : list Relationship) :
  walk_end n (a ++ b) = walk_end (walk_end n a) b.
Proof. revert n; induction a as [|r a IH]; intro n; simpl; auto. Qed.

Lemma rel_in_spec (r : Relationship) (used : list Relationship) :
  Cypher.rel_in r used = true <-> In (rel_element_id r) (ids used).
Proof.
  unfold Cypher.rel_in, Cypher.same_rel, ids.
  rewrite existsb_exists, in_map_iff. split.
  - intros (x & Hx & E). apply String.eqb_eq in E. now exists x.
  - intros (x & E & Hx). exists x. split; [exact Hx|]. now apply String.eqb_eq.
Qed.

Lemma flat_map_ext_on {A B : Type} (f g : A -> list B) (l : list A) :
  (forall x, In x l -> f x = g x) -> flat_map f l = flat_map g l.
Proof.
  induction l as [|a l IH]; simpl; intro H; [reflexivity|].
  rewrite (H a), IH; auto.
Qed.

Lemma flat_map_nil {A B : Type} (f : A -> list B) (l : list A) :
  (forall x, In x l -> f x = []) -> flat_map f l = [].
Proof.
  induction l as [|a l IH]; simpl; intro H; [reflexivity|].
  rewrite (H a), IH; auto.
Qed.

Lemma NoDup_snoc {A : Type} (l : list A) (x : A) :
  NoDup l -> ~ In x l -> NoDup (l ++ [x]).
Proof.
  intros Hl Hx. apply NoDup_app; [exact Hl|repeat constructor; intros []|].
  intros a Ha [<-|[]]. now apply Hx.
Qed.

Lemma NoDup_ids_eq (rels : list Relationship) (x y : Relationship) :
  NoDup (ids rels) -> In x rels -> In y rels ->
  rel_element_id x = rel_element_id y -> x = y.
Proof.
  unfold ids. induction rels as [|a rels IH]; simpl; [intros _ []|].
  intros Hn Hx Hy E. apply NoDup_cons_iff in Hn as [Ha Hn].
  destruct Hx as [<-|Hx], Hy as [<-|Hy]; auto.
  - exfalso. apply Ha. rewrite E. now apply in_map.
  - exfalso. apply Ha. rewrite <- E. now apply in_map.
Qed.

Section Traversal.

Variable rels : list Relationship.

(** Once every relationship of the store is on the path, nothing is
    left to take: from [length rels] on, more fuel finds no new path. *)
Lemma expand_out_stable (fuel : nat) :
  forall used cur,
    NoDup (ids used) -> incl (ids used) (ids rels) ->
    List.length rels <= fuel + List.length used ->
    Cypher.expand_out (S fuel) rels used cur
    = Cypher.expand_out fuel rels used cur.
Proof.
  induction fuel as [|k IH]; intros used cur Hn Hi Hl.
  - simpl. apply flat_map_nil. intros r Hr.
    assert (Cypher.rel_in r used = true) as ->.
    { apply rel_in_spec.
      apply (@NoDup_length_incl _ (ids used) (ids rels) Hn);
        [|exact Hi|now apply in_map].
      unfold ids. rewrite !length_map. simpl in Hl. exact Hl. }
    now rewrite andb_false_r.
  - change (Cypher.expand_out (S (S k)) rels used cur)
      with (flat_map
              (fun r =>
                 if Cypher.same_node (startNode r) cur
                    && negb (Cypher.rel_in r used)
                 then (used ++ [r])
                        :: Cypher.expand_out (S k) rels (used ++ [r])
                             (endNode r)
                 else []) rels).
    change (Cypher.expand_out (S k) rels used cur)
      with (flat_map
              (fun r =>
                 if Cypher.same_node (startNode r) cur
                    && negb (Cypher.rel_in r used)
                 then (used ++ [r])
                        :: Cypher.expand_out k rels (used ++ [r])
                             (endNode r)
                 else []) rels).
    apply flat_map_ext_on. intros r Hr.
    destruct (Cypher.same_node (startNode r) cur); cbn [andb]; [|reflexivity].
    destruct (Cypher.rel_in r used) eqn:Eu; cbn [negb]; [reflexivity|].
    f_equal. apply IH.
    + unfold ids. rewrite map_app. apply NoDup_snoc; [exact Hn|].
      intro H. apply rel_in_spec in H. congruence.
    + unfold ids. rewrite map_app. apply incl_app; [exact Hi|].
      intros x [<-|[]]. now apply in_map.
    + rewrite length_app. simpl. lia.
Qed.

Lemma expand_in_stable (fuel : nat) :
  forall used cur,
    NoDup (ids used) -> incl (ids used) (ids rels) ->
    List.length rels <= fuel + List.length used ->
    Cypher.expand_in (S fuel) rels used cur
    = Cypher.expand_in fuel rels used cur.
Proof.
  induction fuel as [|k IH]; intros used cur Hn Hi Hl.
  - simpl. apply flat_map_nil. intros r Hr.
    assert (Cypher.rel_in r used = true) as ->.
    { apply rel_in_spec.
      apply (@NoDup_length_incl _ (ids used) (ids rels) Hn);
        [|exact Hi|now apply in_map].
      unfold ids. rewrite !length_map. simpl in Hl. exact Hl. }
    now rewrite andb_false_r.
  - change (Cypher.expand_in (S (S k)) rels used cur)
      with (flat_map
              (fun r =>
                 if Cypher.same_node (endNode r) cur
                    && negb (Cypher.rel_in r used)
                 then (r :: used)
                        :: Cypher.expand_in (S k) rels (r :: used)
                             (startNode r)
                 else []) rels).
    change (Cypher.expand_in (S k) rels used cur)
      with (flat_map
              (fun r =>
                 if Cypher.same_node (endNode r) cur
                    && negb (Cypher.rel_in r used)
                 then (r :: used)
                        :: Cypher.expand_in k rels (r :: used)
                             (startNode r)
                 else []) rels).
    apply flat_map_ext_on. intros r Hr.
    destruct (Cypher.same_node (endNode r) cur); cbn [andb]; [|reflexivity].
    destruct (Cypher.rel_in r used) eqn:Eu; cbn [negb]; [reflexivity|].
    f_equal. apply IH.
    + simpl. constructor; [|exact Hn].
      intro H. apply rel_in_spec in H. congruence.
    + simpl. apply incl_cons; [now apply in_map|exact Hi].
    + simpl. lia.
Qed.

Lemma expand_out_enough (extra : nat) (cur : Node) :
  Cypher.expand_out (List.length rels + extra) rels [] cur
  = Cypher.expand_out (List.length rels) rels [] cur.
Proof.
  induction extra as [|k IH]; [now rewrite Nat.add_0_r|].
  rewrite Nat.add_succ_r, expand_out_stable; [exact IH|constructor| |lia].
  intros x [].
Qed.

Lemma expand_in_enough (extra : nat) (cur : Node) :
  Cypher.expand_in (List.length rels + extra) rels [] cur
  = Cypher.expand_in (List.length rels) rels [] cur.
Proof.
  induction extra as [|k IH]; [now rewrite Nat.add_0_r|].
  rewrite Nat.add_succ_r, expand_in_stable; [exact IH|constructor| |lia].
  intros x [].
Qed.

(** Every path found is made of the path so far and of relationships
    of the store. *)
Lemma expand_out_sound (fuel : nat) :
  forall used cur p,
    In p (Cypher.expand_out fuel rels used cur) -> incl p (used ++ rels).
Proof.
  induction fuel as [|k IH]; intros used cur p H; [destruct H|].
  simpl in H. apply in_flat_map in H as (r & Hr & H).
  destruct (_ && _); [|destruct H].
  assert (incl (used ++ [r]) (used ++ rels)) as Hi.
  { apply incl_app; [now apply incl_appl|].
    intros x [<-|[]]. apply in_or_app. now right. }
  destruct H as [<-|H]; [exact Hi|].
  apply IH in H. intros x Hx. apply H in Hx.
  apply in_app_or in Hx as [Hx|Hx]; [now apply Hi|].
  apply in_or_app. now right.
Qed.

Lemma expand_in_sound (fuel : nat) :
  forall used cur p,
    In p (Cypher.expand_in fuel rels used cur) -> incl p (used ++ rels).
Proof.
  induction fuel as [|k IH]; intros used cur p H; [destruct H|].
  simpl in H. apply in_flat_map in H as (r & Hr & H).
  destruct (_ && _); [|destruct H].
  assert (incl (r :: used) (used ++ rels)) as Hi.
  { apply incl_cons; [apply in_or_app; now right|now apply incl_appl]. }
  destruct H as [<-|H]; [exact Hi|].
  apply IH in H. intros x Hx. apply H in Hx.
  apply in_app_or in Hx as [Hx|Hx]; [now apply Hi|].
  apply in_or_app. now right.
Qed.

End Traversal.

Section Completeness.

Variable rels : list Relationship.

(** Every chain from [cur] that repeats no relationship, and none of
    the path so far, is found. *)
Lemma expand_out_complete (t : list Relationship) :
  forall used cur fuel,
    t <> [] -> walk_from cur t = true -> incl t rels ->
    NoDup (ids (used ++ t)) -> List.length t <= fuel ->
    In (used ++ t) (Cypher.expand_out fuel rels used cur).
Proof.
  induction t as [|r t IH]; intros used cur fuel Hne Hw Hi Hn Hl;
    [congruence|].
  destruct fuel as [|k]; [simpl in Hl; lia|].
  simpl in Hw. apply andb_prop in Hw as [Hs Hw].
  simpl. apply in_flat_map. exists r. split; [apply Hi; now left|].
  rewrite Hs. cbn [andb].
  assert (Cypher.rel_in r used = false) as ->.
  { destruct (Cypher.rel_in r used) eqn:E; [|reflexivity].
    apply rel_in_spec in E. unfold ids in Hn. rewrite map_app in Hn.
    simpl in Hn. apply NoDup_remove_2 in Hn. exfalso. apply Hn.
    apply in_or_app. now left. }
  cbn [negb]. destruct t as [|r' t]; [now left|]. right.
  replace (used ++ r :: r' :: t) with ((used ++ [r]) ++ r' :: t)
    by now rewrite <- app_assoc.
  apply IH.
  - discriminate.
  - exact Hw.
  - intros x Hx. apply Hi. now right.
  - now rewrite <- app_assoc.
  - simpl in Hl |- *. lia.
Qed.

Hypothesis rels_wf : NoDup (ids rels).

(** A chain from [n] that ends with [r] can be cut down to one that
    repeats no relationship and still ends with [r]. *)
Lemma walk_to_trail (w : list Relationship) :
  forall n r,
    walk_from n (w ++ [r]) = true -> incl (w ++ [r]) rels ->
    exists t,
      walk_from n (t ++ [r]) = true /\ incl (t ++ [r]) rels
      /\ NoDup (ids (t ++ [r])).
Proof.
  induction w as [|r' w IH] using rev_ind; intros n r Hw Hi.
  - exists []. repeat split; auto. simpl. repeat constructor. intros [].
  - rewrite walk_from_app in Hw. apply andb_prop in Hw as [Hw Hr].
    assert (incl (w ++ [r']) rels) as Hi'.
    { intros x Hx. apply Hi. apply in_or_app. now left. }
    assert (In r rels) as Hrin.
    { apply Hi. apply in_or_app. right. now left. }
    destruct (IH n r' Hw Hi') as (t & Ht & Hti & Htn).
    destruct (in_dec string_dec (rel_element_id r) (ids (t ++ [r'])))
      as [Hin|Hout].
    + unfold ids in Hin. apply in_map_iff in Hin as (x & E & Hx).
      assert (x = r) as ->.
      { apply (NoDup_ids_eq rels); auto. }
      apply in_split in Hx as (a & b & Hab).
      exists a. rewrite Hab in Ht, Hti, Htn.
      replace (a ++ r :: b) with ((a ++ [r]) ++ b) in Ht, Hti, Htn
        by now rewrite <- app_assoc.
      rewrite walk_from_app in Ht. apply andb_prop in Ht as [Ht _].
      repeat split.
      * exact Ht.
      * intros x Hx. apply Hti. apply in_or_app. now left.
      * unfold ids in Htn |- *. rewrite map_app in Htn.
        now apply NoDup_app_remove_r in Htn.
    + exists (t ++ [r']). repeat split.
      * rewrite walk_from_app, Ht. cbn [andb].
        rewrite walk_end_app in Hr |- *. exact Hr.
      * apply incl_app; [exact Hti|]. intros x [<-|[]]. exact Hrin.
      * unfold ids in *. rewrite map_app. now apply NoDup_snoc.
Qed.

(** Every relationship on a chain from [n] is on a path of the
    outbound traversal from [n]. *)
Lemma walk_covered (n : Node) (w : list Relationship) (r : Relationship) :
  walk_from n w = true -> incl w rels -> In r w ->
  In r (List.concat (Cypher.expand_out (List.length rels) rels [] n)).
Proof.
  intros Hw Hi Hr. apply in_split in Hr as (a & b & ->).
  replace (a ++ r :: b) with ((a ++ [r]) ++ b) in Hw, Hi
    by now rewrite <- app_assoc.
  rewrite walk_from_app in Hw. apply andb_prop in Hw as [Hw _].
  assert (incl (a ++ [r]) rels) as Hi'.
  { intros x Hx. apply Hi. apply in_or_app. now left. }
  destruct (walk_to_trail a n r Hw Hi') as (t & Ht & Hti & Htn).
  apply in_concat. exists (t ++ [r]). split.
  - apply (expand_out_complete (t ++ [r]) [] n); auto.
    + now destruct t.
    + rewrite <- (length_map rel_element_id (t ++ [r])).
      rewrite <- (length_map rel_element_id rels).
      apply NoDup_incl_length; [exact Htn|].
      intros x Hx. apply in_map_iff in Hx as (y & <- & Hy).
      apply in_map. now apply Hti.
  - apply in_or_app. right. now left.
Qed.

(** Where identities are unique, [WITH DISTINCT] loses no relationship. *)
Lemma distinct_same_rel_keeps (l : list Relationship) (r : Relationship) :
  incl l rels -> In r l -> In r (distinct Cypher.same_rel l).
Proof.
  induction l as [|a l IH]; intros Hi Hr; [destruct Hr|].
  simpl. destruct Hr as [->|Hr]; [now left|].
  destruct (Cypher.same_rel a r) eqn:E.
  - left. apply String.eqb_eq in E.
    apply (NoDup_ids_eq rels); auto; apply Hi; [now left|now right].
  - right. apply filter_In. split; [|now rewrite E].
    apply IH; [|exact Hr]. intros x Hx. apply Hi. now right.
Qed.

End Completeness.

(** ** Rows are compared as triples *)

Lemma row_eqb_refl (x : Cypher.Row) : Cypher.row_eqb x x = true.
Proof.
  unfold Cypher.row_eqb, Cypher.same_node. now rewrite !String.eqb_refl.
Qed.

Lemma row_eqb_sym (x y : Cypher.Row) : Cypher.row_eqb x y = Cypher.row_eqb y x.
Proof.
  unfold Cypher.row_eqb, Cypher.same_node.
  now rewrite (String.eqb_sym (element_id (Cypher.source x))),
    (String.eqb_sym (Cypher.row_type x)),
    (String.eqb_sym (element_id (Cypher.target x))).
Qed.

Lemma row_eqb_spec (x y : Cypher.Row) :
  Cypher.row_eqb x y = true
  <-> element_id (Cypher.source x) = element_id (Cypher.source y)
      /\ Cypher.row_type x = Cypher.row_type y
      /\ element_id (Cypher.target x) = element_id (Cypher.target y).
Proof.
  unfold Cypher.row_eqb, Cypher.same_node.
  rewrite !andb_true_iff, !String.eqb_eq. tauto.
Qed.

Lemma row_eqb_trans (x y z : Cypher.Row) :
  Cypher.row_eqb x y = true -> Cypher.row_eqb y z = true ->
  Cypher.row_eqb x z = true.
Proof.
  rewrite !row_eqb_spec. intros (A1 & A2 & A3) (B1 & B2 & B3).
  repeat split; congruence.
Qed.

Lemma value_eqb_spec (x y : option string) :
  Cypher.value_eqb x y = true <-> x = y.
Proof.
  destruct x as [x|], y as [y|]; simpl; try rewrite String.eqb_eq;
    split; congruence.
Qed.

Lemma value_eqb_refl (x : option string) : Cypher.value_eqb x x = true.
Proof. now apply value_eqb_spec. Qed.

Lemma value_eqb_sym (x y : option string) :
  Cypher.value_eqb x y = Cypher.value_eqb y x.
Proof.
  destruct x as [x|], y as [y|]; simpl; auto using String.eqb_sym.
Qed.

Lemma value_eqb_trans (x y z : option string) :
  Cypher.value_eqb x y = true -> Cypher.value_eqb y z = true ->
  Cypher.value_eqb x z = true.
Proof. rewrite !value_eqb_spec. congruence. Qed.

(** The relationships unwound for the anchors all come from the store. *)
Lemma unwound_out_in_store (g : Graph) (anchors : list Node) :
  incl (flat_map (fun n => List.concat (Cypher.paths_out g n)) anchors)
    (relationships g).
Proof.
  intros r Hr. apply in_flat_map in Hr as (n & _ & Hr).
  apply in_concat in Hr as (p & Hp & Hr).
  apply expand_out_sound in Hp. now apply Hp in Hr.
Qed.

Lemma unwound_in_in_store (g : Graph) (anchors : list Node) :
  incl (flat_map (fun n => List.concat (Cypher.paths_in g n)) anchors)
    (relationships g).
Proof.
  intros r Hr. apply in_flat_map in Hr as (n & _ & Hr).
  apply in_concat in Hr as (p & Hp & Hr).
  apply expand_in_sound in Hp. now apply Hp in Hr.
Qed.

(** Every relationship on a chain that leaves an anchor is returned by
    the outbound sub-query. *)
Lemma rels_out_covers (g : Graph) (entity : string) (n : Node)
    (w : list Relationship) (r : Relationship) :
  wf_graph g -> In n (Cypher.match_anchor g entity) ->
  walk_from n w = true -> incl w (relationships g) -> In r w ->
  In r (Cypher.rels_out g entity).
Proof.
  intros Hwf Hn Hw Hi Hr.
  unfold Cypher.rels_out, Cypher.distinct_rels.
  apply (distinct_same_rel_keeps (relationships g) Hwf).
  - apply unwound_out_in_store.
  - apply in_flat_map. exists n. split; [exact Hn|].
    now apply (walk_covered (relationships g) Hwf n w).
Qed.

(** C3. In a store with unique relationship identities, take a chain [p]
    of relationships from an anchor of the entity to some node and a
    directed cycle [c] through that node.  Both traversals stop: with
    the store's number of relationships as the bound on the path length,
    allowing longer paths finds nothing more, from any node.  And every
    relationship [r] of the cycle is returned exactly once, rows being
    compared as (source identity, type, target identity); no row at all
    is returned twice.  The same holds of the rendered rows of the text
    query. *)
Theorem C3_cycle_terminates_edges_once (g : Graph) (entity : string)
    (n : Node) (p c : list Relationship) (r : Relationship) :
  wf_graph g ->
  In n (Cypher.match_anchor g entity) ->
  incl (p ++ c) (relationships g) ->
  walk_from n (p ++ c) = true ->
  c <> [] ->
  Cypher.same_node (walk_end n (p ++ c)) (walk_end n p) = true ->
  In r c ->
  (forall m extra,
      Cypher.expand_out (List.length (relationships g) + extra)
        (relationships g) [] m = Cypher.paths_out g m
      /\ Cypher.expand_in (List.length (relationships g) + extra)
           (relationships g) [] m = Cypher.paths_in g m)
  /\ occurrences Cypher.row_eqb (Cypher.row_of r)
       (Cypher.graph_data_query g entity) = 1
  /\ (forall row,
        occurrences Cypher.row_eqb row (Cypher.graph_data_query g entity) <= 1)
  /\ occurrences Cypher.value_eqb (Cypher.render r)
       (Cypher.relationships_query g entity) = 1
  /\ (forall v,
        occurrences Cypher.value_eqb v (Cypher.relationships_query g entity)
        <= 1).
Proof.
  intros Hwf Hn Hi Hw _ _ Hr.
  assert (In r (Cypher.rels_out g entity)) as Hout.
  { apply (rels_out_covers g entity n (p ++ c)); auto.
    apply in_or_app. now right. }
  split; [|split; [|split; [|split]]].
  - intros m extra. split.
    + apply expand_out_enough.
    + apply expand_in_enough.
  - unfold Cypher.graph_data_query.
    apply (distinct_once _ row_eqb_sym row_eqb_trans row_eqb_refl).
    apply in_or_app. left. now apply in_map.
  - intro row. unfold Cypher.graph_data_query.
    rewrite (occurrences_distinct _ row_eqb_sym row_eqb_trans).
    destruct (existsb _ _); lia.
  - unfold Cypher.relationships_query.
    apply (distinct_once _ value_eqb_sym value_eqb_trans value_eqb_refl).
    apply in_or_app. left. now apply in_map.
  - intro v. unfold Cypher.relationships_query.
    rewrite (occurrences_distinct _ value_eqb_sym value_eqb_trans).
    destruct (existsb _ _); lia.
Qed.

Lemma cycle_graph_wf : wf_graph CycleScenario.graph.
Proof.
  unfold wf_graph. simpl.
  repeat (constructor; [simpl; intuition discriminate|]). constructor.
Qed.

Lemma C3_cycle_terminates_edges_once_witness :
  occurrences Cypher.row_eqb (Cypher.row_of CycleScenario.cb)
    (Cypher.graph_data_query CycleScenario.graph "a") = 1.
Proof.
  apply (C3_cycle_terminates_edges_once CycleScenario.graph "a"
           CycleScenario.a [CycleScenario.ab]
           [CycleScenario.bc; CycleScenario.cb] CycleScenario.cb).
  - exact cycle_graph_wf.
  - simpl. now left.
  - intros x Hx. simpl in Hx |- *. intuition.
  - reflexivity.
  - discriminate.
  - reflexivity.
  - simpl. auto.
Defined.

(** ** Entities without relationships *)

Lemma expand_out_isolated (g : Graph) (n : Node) (fuel : nat)
    (used : list Relationship) :
  isolated g n -> Cypher.expand_out fuel (relationships g) used n = [].
Proof.
  intro H. destruct fuel as [|k]; [reflexivity|]. simpl.
  apply flat_map_nil. intros r Hr. now rewrite (proj1 (H r Hr)).
Qed.

Lemma expand_in_isolated (g : Graph) (n : Node) (fuel : nat)
    (used : list Relationship) :
  isolated g n -> Cypher.expand_in fuel (relationships g) used n = [].
Proof.
  intro H. destruct fuel as [|k]; [reflexivity|]. simpl.
  apply flat_map_nil. intros r Hr. now rewrite (proj2 (H r Hr)).
Qed.

Lemma two_hops_isolated (g : Graph) (n : Node) :
  isolated g n -> Cypher.two_hops g n = [].
Proof.
  intro H. unfold Cypher.two_hops. apply flat_map_nil.
  intros r Hr. now rewrite (proj1 (H r Hr)).
Qed.

Lemma distinct_rels_isolated (g : Graph) (anchors : list Node) :
  (forall n, In n anchors -> isolated g n) ->
  Cypher.distinct_rels (Cypher.paths_out g) anchors = []
  /\ Cypher.distinct_rels (Cypher.paths_in g) anchors = [].
Proof.
  intro H. unfold Cypher.distinct_rels, Cypher.paths_out, Cypher.paths_in.
  split; apply distinct_nil; apply flat_map_nil; intros n Hn.
  - now rewrite expand_out_isolated by auto.
  - now rewrite expand_in_isolated by auto.
Qed.

Lemma queries_isolated (g : Graph) (e : string) :
  (forall n, In n (Cypher.match_anchor g e) -> isolated g n) ->
  Cypher.relationships_query g e = [] /\ Cypher.graph_data_query g e = [].
Proof.
  intro H. destruct (distinct_rels_isolated g _ H) as [Ho Hi].
  unfold Cypher.relationships_query, Cypher.graph_data_query,
    Cypher.rels_out, Cypher.rels_in.
  rewrite Ho, Hi. split; reflexivity.
Qed.

(** An anchor with a relationship gives the relationship query a row. *)
Lemma relationships_query_row (g : Graph) (e : string) (n : Node)
    (r : Relationship) :
  In n (Cypher.match_anchor g e) -> In r (relationships g) ->
  Cypher.same_node (startNode r) n = true
  \/ Cypher.same_node (endNode r) n = true ->
  Cypher.relationships_query g e <> [].
Proof.
  intros Hn Hr Hs Hq. unfold Cypher.relationships_query in Hq.
  apply distinct_nil, app_eq_nil in Hq as [Ho Hi].
  apply map_eq_nil in Ho.
  assert (Cypher.rels_in g e = []) as Hi'.
  { apply map_eq_nil with (f := Cypher.render).
    apply Permutation_nil. rewrite <- Hi. apply sort_by_perm. }
  clear Hi. unfold Cypher.rels_out, Cypher.rels_in, Cypher.distinct_rels in *.
  apply distinct_nil in Ho, Hi'.
  assert (exists k, List.length (relationships g) = S k) as [k Hk].
  { destruct (relationships g); [destruct Hr|]. simpl. eauto. }
  destruct Hs as [Hs|Hs].
  - assert (In r (flat_map (fun n => List.concat (Cypher.paths_out g n))
                    (Cypher.match_anchor g e))) as H; [|now rewrite Ho in H].
    apply in_flat_map. exists n. split; [exact Hn|].
    apply in_concat. exists [r]. split; [|now left].
    unfold Cypher.paths_out. rewrite Hk. simpl.
    apply in_flat_map. exists r. split; [exact Hr|].
    rewrite Hs. now left.
  - assert (In r (flat_map (fun n => List.concat (Cypher.paths_in g n))
                    (Cypher.match_anchor g e))) as H; [|now rewrite Hi' in H].
    apply in_flat_map. exists n. split; [exact Hn|].
    apply in_concat. exists [r]. split; [|now left].
    unfold Cypher.paths_in. rewrite Hk. simpl.
    apply in_flat_map. exists r. split; [exact Hr|].
    rewrite Hs. now left.
Qed.

Lemma relationships_query_nil_iff (g : Graph) (e : string) :
  (forall n, In n (Cypher.match_anchor g e) -> isolated g n)
  <-> Cypher.relationships_query g e = [].
Proof.
  split; [intro H; now apply queries_isolated|].
  intros Hq n Hn r Hr.
  split.
  - destruct (Cypher.same_node (startNode r) n) eqn:E; [|reflexivity].
    exfalso. apply (relationships_query_row g e n r); auto.
  - destruct (Cypher.same_node (endNode r) n) eqn:E; [|reflexivity].
    exfalso. apply (relationships_query_row g e n r); auto.
Qed.

Lemma firstn_In {A : Type} (k : nat) (l : list A) (x : A) :
  In x (firstn k l) -> In x l.
Proof.
  intro H. rewrite <- (firstn_skipn k l). apply in_or_app. now left.
Qed.

Lemma grandparent_line_isolated (w : World) (e : string) (tr : list Event) :
  (forall n, In n (Cypher.match_anchor (kg w) e) -> isolated (kg w) n) ->
  grandparent_line w e tr
  = (Returned ("No grandparent found for " +++ e +++ nl),
     tr ++ [EvGrandparent e]).
Proof.
  intro H. unfold grandparent_line, bind, call.
  assert (forall v, In v (Cypher.grandparent_query (kg w) e) -> v = None)
    as Hv.
  { intros v Hin. unfold Cypher.grandparent_query in Hin.
    apply firstn_In, distinct_incl in Hin.
    apply in_flat_map in Hin as (n & Hn & Hin).
    unfold Cypher.grand_ids in Hin.
    rewrite (two_hops_isolated _ _ (H n Hn)) in Hin.
    destruct Hin as [<-|[]]. reflexivity. }
  destruct (Cypher.grandparent_query (kg w) e) as [|[[|c s]|] l];
    try reflexivity.
  specialize (Hv (Some (String c s)) (or_introl eq_refl)). discriminate.
Qed.

Lemma relationship_lines_eq (w : World) (e : string) (tr : list Event) :
  relationship_lines w e tr
  = (match Cypher.relationships_query (kg w) e with
     | [] => Returned ("No relationships found for entity: " +++ e +++ nl)
     | _ :: _ =>
         match join_outputs (Cypher.relationships_query (kg w) e) with
         | Returned s => Returned (s +++ nl)
         | Raised m => Raised m
         end
     end, tr ++ [EvRelationships e]).
Proof.
  unfold relationship_lines, bind, call.
  destruct (Cypher.relationships_query (kg w) e); [reflexivity|].
  destruct (join_outputs _); reflexivity.
Qed.

Lemma retrieve_entity_isolated (w : World) (e : string) (tr : list Event) :
  (forall n, In n (Cypher.match_anchor (kg w) e) -> isolated (kg w) n) ->
  retrieve_entity w e tr
  = (Returned ("No relationships found for entity: " +++ e +++ nl
                 +++ "No grandparent found for " +++ e +++ nl),
     tr ++ [EvRelationships e; EvGrandparent e]).
Proof.
  intro H. unfold retrieve_entity, bind.
  rewrite relationship_lines_eq, (proj1 (queries_isolated _ _ H)).
  rewrite grandparent_line_isolated by exact H.
  unfold ret. rewrite <- app_assoc. simpl.
  now rewrite !append_assoc.
Qed.

Lemma get_graph_data_isolated (w : World) (e : string) (tr : list Event) :
  (forall n, In n (Cypher.match_anchor (kg w) e) -> isolated (kg w) n) ->
  plain_literal e = true ->
  get_graph_data w e tr = (Returned ([], []), tr ++ [EvGraphData e]).
Proof.
  intros H Hp. unfold get_graph_data, bind, call, tx_run.
  now rewrite Hp, (proj2 (queries_isolated _ _ H)).
Qed.

Lemma no_anchor_isolated (g : Graph) (e : string) :
  Cypher.match_anchor g e = [] ->
  forall n, In n (Cypher.match_anchor g e) -> isolated g n.
Proof. intros -> n []. Qed.

(** C4, as amended.  An entity without anchor contributes the line
    "No relationships found for entity: e", followed by the line of the
    grandparent probe, "No grandparent found for e", and no relationship
    line.  When its name holds no quote and no backslash,
    [get_graph_data] returns an empty node map and an empty relationship
    list for it, and the visualization reports that no graph data was
    found, writing no file.  The line is contributed exactly when the
    relationship query returns no row, that is when no anchor of the
    entity has a relationship that starts or ends in it: entities
    without anchor, and entities whose anchors are isolated. *)
Theorem C4_no_relationships_line (w : World) (e : string) (tr : list Event) :
  (Cypher.match_anchor (kg w) e = [] ->
   retrieve_entity w e tr
   = (Returned ("No relationships found for entity: " +++ e +++ nl
                  +++ "No grandparent found for " +++ e +++ nl),
      tr ++ [EvRelationships e; EvGrandparent e])
   /\ (plain_literal e = true ->
       get_graph_data w e tr = (Returned ([], []), tr ++ [EvGraphData e])
       /\ forall question rest,
            entity_chain w question = Returned (e :: rest) ->
            generate_graph_visualization w question tr
            = (Returned (None, "❌ No graph data found for entity: " +++ e,
                         false),
               tr ++ [EvExtract question; EvGraphData e])))
  /\ ((forall n, In n (Cypher.match_anchor (kg w) e) -> isolated (kg w) n)
      <-> Cypher.relationships_query (kg w) e = [])
  /\ (Cypher.relationships_query (kg w) e = [] ->
      relationship_lines w e tr
      = (Returned ("No relationships found for entity: " +++ e +++ nl),
         tr ++ [EvRelationships e]))
  /\ (Cypher.relationships_query (kg w) e <> [] ->
      relationship_lines w e tr
      = (match join_outputs (Cypher.relationships_query (kg w) e) with
         | Returned s => Returned (s +++ nl)
         | Raised m => Raised m
         end, tr ++ [EvRelationships e])).
Proof.
  split; [|split; [|split]].
  - intro Ha. pose proof (no_anchor_isolated _ _ Ha) as Hiso.
    split; [now apply retrieve_entity_isolated|].
    intro Hp. split; [now apply get_graph_data_isolated|].
    intros question rest He.
    unfold generate_graph_visualization, try_except, bind, call.
    rewrite He. simpl primary_entity.
    rewrite (get_graph_data_isolated w e _ Hiso Hp).
    unfold ret. now rewrite <- app_assoc.
  - apply relationships_query_nil_iff.
  - intro Hq. now rewrite relationship_lines_eq, Hq.
  - intro Hq. rewrite relationship_lines_eq.
    destruct (Cypher.relationships_query (kg w) e); [congruence|reflexivity].
Qed.

Lemma C4_no_relationships_line_witness :
  retrieve_entity (Scenario.world Scenario.graph ["Ghost"]) "Ghost" []
  = (Returned ("No relationships found for entity: Ghost" +++ nl
                 +++ "No grandparent found for Ghost" +++ nl),
     [EvRelationships "Ghost"; EvGrandparent "Ghost"]).
Proof.
  apply (C4_no_relationships_line
           (Scenario.world Scenario.graph ["Ghost"]) "Ghost" []).
  reflexivity.
Defined.

(** C4 as stated fails in its converse: the node "Ada" exists, so the
    entity has an anchor, and the line is produced all the same, the
    node having no relationship.  It also fails for the index form of a
    name that holds a quote: no node of [InjectionScenario] has the name
    for [id], in whatever case, and the text form says so, yet
    [get_graph_data], whose query text the name has changed, returns the
    nodes and relationships of "Acme" and the visualization writes
    them. *)
Lemma C4_line_with_anchor :
  Cypher.match_anchor GhostScenario.lonely "ada"
  = [mkNode "n0" (Some "Ada")]
  /\ retrieve_entity (Scenario.world GhostScenario.lonely ["ada"]) "ada" []
     = (Returned ("No relationships found for entity: ada" +++ nl
                    +++ "No grandparent found for ada" +++ nl),
        [EvRelationships "ada"; EvGrandparent "ada"])
  /\ Cypher.match_anchor (kg InjectionScenario.world)
       InjectionScenario.mixed_name
     = []
  /\ fst (retrieve_entity InjectionScenario.world
            InjectionScenario.mixed_name [])
     = Returned ("No relationships found for entity: "
                   +++ InjectionScenario.mixed_name +++ nl
                   +++ "No grandparent found for "
                   +++ InjectionScenario.mixed_name +++ nl)
  /\ fst (get_graph_data InjectionScenario.world
            InjectionScenario.mixed_name [])
     = Returned ([("Acme", 0); ("Paris", 1); ("France", 2)],
                 [mkRelEntry 0 1 "LOCATED_IN"; mkRelEntry 1 2 "PART_OF"])
  /\ fst (generate_graph_visualization InjectionScenario.world "q" [])
     = Returned
         (Some (replace_char " " "_" (toLower InjectionScenario.mixed_name)
                  +++ "_graph.html"),
          "✅ Graph generated for entity: **" +++ InjectionScenario.mixed_name
            +++ "** | Nodes: 3 | Relationships: 2",
          true).
Proof. repeat split; vm_compute; reflexivity. Qed.

(** ** The order of the relationship lines *)

(** C5, at the input where the code departs from it.  Both
    relationships are found by the outbound traversal from "Bob", in
    path order; the [ORDER BY] sorts the rows of the inbound sub-query
    only, so the line of Bob comes before the line of Acme although
    "Acme..." is the smaller string, whichever way the store lists the
    two relationships. *)
Theorem C5_outbound_rows_not_sorted :
  structured_retriever (Scenario.world OrderScenario.graph ["Bob"]) "q" []
  = (Returned ("Bob -[WORKS_FOR]-> Acme" +++ nl
                 +++ "Acme -[LOCATED_IN]-> Paris" +++ nl
                 +++ "Grandparent id of Bob: Paris" +++ nl),
     [EvExtract "q"; EvRelationships "Bob"; EvGrandparent "Bob"])
  /\ Cypher.relationships_query OrderScenario.graph' "Bob"
     = Cypher.relationships_query OrderScenario.graph "Bob"
  /\ Cypher.relationships_query OrderScenario.graph "Bob"
     = [Some "Bob -[WORKS_FOR]-> Acme"; Some "Acme -[LOCATED_IN]-> Paris"]
  /\ String.leb "Bob -[WORKS_FOR]-> Acme" "Acme -[LOCATED_IN]-> Paris" = false
  /\ ~ Sorted (fun a b => Cypher.value_leb a b = true)
         (Cypher.relationships_query OrderScenario.graph "Bob").
Proof.
  repeat split; try (vm_compute; reflexivity).
  intro H. vm_compute in H.
  apply Sorted_inv in H as [_ H]. apply HdRel_inv in H. discriminate.
Qed.

(** ** The node index of [get_graph_data] *)

Lemma distinct_keeps {A : Type} (eqb : A -> A -> bool) (l : list A) (x : A) :
  (forall a b, In a l -> In b l -> eqb a b = true -> a = b) ->
  In x l -> In x (distinct eqb l).
Proof.
  induction l as [|a l IH]; intros He Hx; [destruct Hx|].
  simpl. destruct Hx as [->|Hx]; [now left|].
  destruct (eqb a x) eqn:E.
  - left. apply He; auto; [now left|now right].
  - right. apply filter_In. split; [|now rewrite E].
    apply IH; [|exact Hx]. intros u v Hu Hv. apply He; now right.
Qed.

Lemma dict_get_app (k : string) (d d' : NodeMap) :
  dict_get k (d ++ d')
  = match dict_get k d with Some v => Some v | None => dict_get k d' end.
Proof.
  induction d as [|[k' v] d IH]; simpl; [reflexivity|].
  destruct (String.eqb k k'); [reflexivity|exact IH].
Qed.

Lemma dict_get_In (k : string) (d : NodeMap) (v : nat) :
  dict_get k d = Some v -> In (k, v) d.
Proof.
  induction d as [|[k' v'] d IH]; simpl; [discriminate|].
  destruct (String.eqb_spec k k') as [->|_].
  - intros [= ->]. now left.
  - intro H. right. now apply IH.
Qed.

Lemma dict_get_None (k : string) (d : NodeMap) :
  dict_get k d = None -> ~ In k (map fst d).
Proof.
  induction d as [|[k' v'] d IH]; simpl; [intros _ []|].
  destruct (String.eqb_spec k k') as [->|Hne]; [discriminate|].
  intros H [E|Hin]; [congruence|now apply IH].
Qed.

Lemma index_bound (nm : NodeMap) (idx : nat) (k : string) (i : nat) :
  map snd nm = seq 0 idx -> dict_get k nm = Some i -> i < idx.
Proof.
  intros Hs Hg. apply dict_get_In in Hg.
  apply (in_map snd) in Hg. rewrite Hs in Hg. apply in_seq in Hg.
  simpl in Hg. lia.
Qed.

Lemma add_node_spec (key : string) (nm : NodeMap) (idx : nat) :
  map snd nm = seq 0 idx -> NoDup (map fst nm) ->
  exists nm' idx' i,
    add_node key (nm, idx) = (nm', idx')
    /\ dict_get key nm' = Some i
    /\ map snd nm' = seq 0 idx'
    /\ NoDup (map fst nm')
    /\ ((nm' = nm /\ idx' = idx /\ i < idx)
        \/ (nm' = nm ++ [(key, idx)] /\ idx' = S idx /\ i = idx)).
Proof.
  intros Hs Hn. unfold add_node, dict_mem.
  destruct (dict_get key nm) as [i|] eqn:E.
  - exists nm, idx, i. repeat split; auto.
    left. repeat split. now apply (index_bound nm idx key).
  - exists (nm ++ [(key, idx)]), (S idx), idx. repeat split.
    + rewrite dict_get_app, E. simpl. now rewrite String.eqb_refl.
    + rewrite map_app, Hs, seq_S. reflexivity.
    + rewrite map_app. apply NoDup_snoc; [exact Hn|].
      now apply dict_get_None.
    + right. auto.
Qed.

Lemma seen_index (l : list nat) (idx y : nat) :
  distinct Nat.eqb l = seq 0 idx ->
  existsb (fun x => x =? y) l = (y <? idx).
Proof.
  intro H. apply eq_true_iff_eq. rewrite existsb_exists, Nat.ltb_lt. split.
  - intros (x & Hx & E). apply Nat.eqb_eq in E. subst x.
    apply (distinct_keeps Nat.eqb) in Hx.
    + rewrite H in Hx. apply in_seq in Hx. lia.
    + intros a b _ _. apply Nat.eqb_eq.
  - intro Hy. exists y. split; [|apply Nat.eqb_refl].
    apply (distinct_incl Nat.eqb). rewrite H. apply in_seq. lia.
Qed.

Lemma endpoints_snoc (rels : list RelEntry) (idx s t : nat) (ty : string) :
  distinct Nat.eqb (endpoints rels) = seq 0 idx ->
  distinct Nat.eqb (endpoints (rels ++ [mkRelEntry s t ty]))
  = seq 0 idx
      ++ filter (fun y => negb (y <? idx))
           (s :: (if s =? t then [] else [t])).
Proof.
  intro H. unfold endpoints at 1. rewrite flat_map_app. simpl.
  fold (endpoints rels). rewrite distinct_app, H. f_equal.
  rewrite (filter_ext _ (fun y => negb (y <? idx))).
  - simpl. now destruct (s =? t).
  - intro y. now rewrite (seen_index _ idx y H).
Qed.

Lemma seq_two (idx : nat) : seq 0 (S (S idx)) = seq 0 idx ++ [idx; S idx].
Proof. rewrite !seq_S, <- app_assoc. reflexivity. Qed.

Lemma index_record_ok (nm : NodeMap) (rels : list RelEntry) (idx : nat)
    (record : Cypher.Row) :
  index_inv (nm, rels, idx) ->
  exists nm' en idx' ext,
    index_record (nm, rels, idx) record = Returned (nm', rels ++ [en], idx')
    /\ index_inv (nm', rels ++ [en], idx')
    /\ nm' = nm ++ ext
    /\ indexes nm' record en.
Proof.
  intros (Hs & Hn & Hd). unfold index_record.
  destruct (add_node_spec (node_key (Cypher.source record)) nm idx Hs Hn)
    as (nm1 & idx1 & s & E1 & G1 & Hs1 & Hn1 & C1).
  destruct (add_node_spec (node_key (Cypher.target record)) nm1 idx1 Hs1 Hn1)
    as (nm2 & idx2 & t & E2 & G2 & Hs2 & Hn2 & C2).
  rewrite E1, E2.
  assert (dict_get (node_key (Cypher.source record)) nm2 = Some s) as G1'.
  { destruct C2 as [(-> & _ & _)|(-> & _ & _)]; [exact G1|].
    now rewrite dict_get_app, G1. }
  rewrite G1', G2.
  exists nm2, (mkRelEntry s t (Cypher.row_type record)), idx2.
  assert (exists ext, nm2 = nm ++ ext) as [ext Hext].
  { destruct C1 as [(-> & _ & _)|(-> & _ & _)],
      C2 as [(-> & _ & _)|(-> & _ & _)]; eexists;
      rewrite <- ?app_assoc; try reflexivity; now rewrite app_nil_r. }
  exists ext. split; [reflexivity|]. split; [|split; [exact Hext|]].
  - split; [exact Hs2|]. split; [exact Hn2|].
    rewrite (endpoints_snoc rels idx s t _ Hd).
    destruct C1 as [(-> & -> & Hlt1)|(-> & -> & ->)],
      C2 as [(-> & -> & Hlt2)|(-> & -> & ->)].
    + rewrite <- (app_nil_r (seq 0 idx)) at 2. f_equal. cbn [filter].
      destruct (Nat.ltb_spec s idx); [|lia]. cbn [negb].
      destruct (s =? t); [reflexivity|]. cbn [filter].
      destruct (Nat.ltb_spec t idx); [|lia]. reflexivity.
    + rewrite seq_S. f_equal. cbn [filter Nat.add].
      destruct (Nat.ltb_spec s idx); [|lia]. cbn [negb].
      destruct (Nat.eqb_spec s idx); [lia|]. cbn [filter].
      now rewrite Nat.ltb_irrefl.
    + rewrite seq_S. f_equal. cbn [filter Nat.add].
      rewrite Nat.ltb_irrefl. cbn [negb].
      destruct (Nat.eqb_spec idx t); [reflexivity|]. cbn [filter].
      destruct (Nat.ltb_spec t idx); [|lia]. reflexivity.
    + rewrite seq_two. f_equal. cbn [filter].
      rewrite Nat.ltb_irrefl. cbn [negb].
      destruct (Nat.eqb_spec idx (S idx)); [lia|]. cbn [filter].
      destruct (Nat.ltb_spec (S idx) idx); [lia|]. reflexivity.
  - repeat split; assumption.
Qed.

Lemma indexes_extend (nm ext : NodeMap) (record : Cypher.Row)
    (en : RelEntry) :
  indexes nm record en -> indexes (nm ++ ext) record en.
Proof.
  intros (Hs & Ht & Hc). unfold indexes.
  now rewrite !dict_get_app, Hs, Ht.
Qed.

Lemma index_records_ok (records : list Cypher.Row) :
  forall nm rels idx,
    index_inv (nm, rels, idx) ->
    exists nm' rels' idx' ext,
      index_records (nm, rels, idx) records
      = Returned (nm', rels ++ rels', idx')
      /\ index_inv (nm', rels ++ rels', idx')
      /\ nm' = nm ++ ext
      /\ Forall2 (indexes nm') records rels'.
Proof.
  induction records as [|record rest IH]; intros nm rels idx Hinv.
  - exists nm, [], idx, []. rewrite !app_nil_r. simpl. auto.
  - destruct (index_record_ok nm rels idx record Hinv)
      as (nm1 & en & idx1 & ext1 & E1 & Hinv1 & Hext1 & Hen).
    destruct (IH nm1 (rels ++ [en]) idx1 Hinv1)
      as (nm2 & rels2 & idx2 & ext2 & E2 & Hinv2 & Hext2 & Hall).
    exists nm2, (en :: rels2), idx2, (ext1 ++ ext2).
    replace (rels ++ en :: rels2) with ((rels ++ [en]) ++ rels2)
      by now rewrite <- app_assoc.
    cbn [index_records]. rewrite E1.
    split; [exact E2|]. split; [exact Hinv2|].
    split; [subst; now rewrite app_assoc|].
    constructor; [|exact Hall]. rewrite Hext2. now apply indexes_extend.
Qed.

(** C6.  Whenever the store answers the query of [get_graph_data], the
    function returns a node map and a relationship list such that: the
    entries are built from the records, in order, through the map; every
    source and target index of the list is the value of an entry of the
    map; the values of the map, in insertion order, are 0, 1, ..., n-1
    and its keys are distinct; these values are the indices of the list
    in the order in which the list first mentions them; and every entry
    of the map is the source or the target of some relationship of the
    list. *)
Theorem C6_node_index_invariant (w : World) (entity : string)
    (tr : list Event) (records : list Cypher.Row) :
  tx_run w entity = Returned records ->
  exists nm rs,
    get_graph_data w entity tr
    = (Returned (nm, rs), tr ++ [EvGraphData entity])
    /\ Forall2 (indexes nm) records rs
    /\ (forall en, In en rs ->
          exists ks kt, In (ks, e_source en) nm /\ In (kt, e_target en) nm)
    /\ map snd nm = seq 0 (List.length nm)
    /\ NoDup (map fst nm)
    /\ distinct Nat.eqb (endpoints rs) = map snd nm
    /\ (forall k i, In (k, i) nm ->
          exists en, In en rs /\ (e_source en = i \/ e_target en = i)).
Proof.
  intro Hq.
  destruct (index_records_ok records [] [] 0)
    as (nm & rs & idx & ext & E & (Hs & Hn & Hd) & _ & Hall).
  { repeat split; constructor. }
  simpl in E, Hd. exists nm, rs.
  assert (List.length nm = idx) as Hlen.
  { rewrite <- (length_map snd nm), Hs. apply length_seq. }
  split; [|split; [exact Hall|split; [|split; [|split; [|split]]]]].
  - unfold get_graph_data, bind, call. rewrite Hq. cbn beta iota.
    match goal with
    | |- match ?x with _ => _ end _ = _ =>
        replace x with (Returned (nm, rs, idx)) by (symmetry; exact E)
    end.
    reflexivity.
  - clear Hq E Hd. induction Hall as [|record en records rs (H1 & H2 & _) _ IH];
      intros en' [].
    + subst en'. exists (node_key (Cypher.source record)),
        (node_key (Cypher.target record)).
      split; now apply dict_get_In.
    + now apply IH.
  - now rewrite Hlen.
  - exact Hn.
  - now rewrite Hd, Hs.
  - intros k i Hin. apply (in_map snd) in Hin. simpl in Hin.
    rewrite Hs, <- Hd in Hin. apply distinct_incl in Hin.
    apply in_flat_map in Hin as (en & Hen & Hi).
    exists en. split; [exact Hen|].
    destruct Hi as [<-|[<-|[]]]; auto.
Qed.

Lemma C6_node_index_invariant_witness :
  exists nm rs,
    get_graph_data (Scenario.world Scenario.graph []) "b" []
    = (Returned (nm, rs), [EvGraphData "b"])
    /\ map snd nm = [0; 1; 2].
Proof.
  destruct (C6_node_index_invariant (Scenario.world Scenario.graph []) "b" []
              (Cypher.graph_data_query Scenario.graph "b") eq_refl)
    as (nm & rs & E & _ & _ & Hs & _).
  exists nm, rs. split; [exact E|].
  rewrite Hs. vm_compute in E. injection E as <- _. reflexivity.
Defined.

(** ** Several entities *)

Lemma retrieve_entity_fst (w : World) (e : string) (tr tr' : list Event) :
  fst (retrieve_entity w e tr) = fst (retrieve_entity w e tr').
Proof.
  unfold retrieve_entity, bind. rewrite !relationship_lines_eq.
  destruct (Cypher.relationships_query (kg w) e) as [|v rows].
  - unfold grandparent_line, bind, call, ret.
    destruct (Cypher.grandparent_query (kg w) e) as [|[[|c s]|] l];
      reflexivity.
  - destruct (join_outputs (v :: rows)); [|reflexivity].
    unfold grandparent_line, bind, call, ret.
    destruct (Cypher.grandparent_query (kg w) e) as [|[[|c s]|] l];
      reflexivity.
Qed.

Lemma retrieve_entities_fst (w : World) (names : list string) :
  forall acc tr,
    fst (retrieve_entities w names acc tr)
    = match concat_texts (map (fun e => fst (retrieve_entity w e [])) names)
      with
      | Returned t => Returned (acc +++ t)
      | Raised m => Raised m
      end.
Proof.
  induction names as [|e rest IH]; intros acc tr; simpl.
  - now rewrite append_nil_r.
  - unfold bind. rewrite <- (retrieve_entity_fst w e tr []).
    destruct (retrieve_entity w e tr) as [[part|m] tr']; simpl;
      [|reflexivity].
    rewrite IH. destruct (concat_texts _); [|reflexivity].
    now rewrite append_assoc.
Qed.

Lemma retrieve_entities_with_names (w : World) (answer names : list string) :
  forall acc tr,
    retrieve_entities (with_names w answer) names acc tr
    = retrieve_entities w names acc tr.
Proof.
  induction names as [|e rest IH]; intros acc tr; [reflexivity|].
  simpl. unfold bind.
  change (retrieve_entity (with_names w answer) e tr)
    with (retrieve_entity w e tr).
  destruct (retrieve_entity w e tr) as [[part|m] tr']; [apply IH|reflexivity].
Qed.

Lemma structured_retriever_names (w : World) (names : list string)
    (question : string) (tr : list Event) :
  fst (structured_retriever (with_names w names) question tr)
  = concat_texts (map (fun e => fst (retrieve_entity w e [])) names).
Proof.
  unfold structured_retriever, bind, call. simpl.
  rewrite retrieve_entities_with_names, retrieve_entities_fst.
  now destruct (concat_texts _).
Qed.

(** C7, as amended.  The text retrieved for the names e1, ..., ek is
    the texts retrieved for each of them put end to end in that order (an
    exception raised for one of them ends the request).  The index form
    is built for the first name alone, whatever follows it. *)
Theorem C7_text_concatenates_index_first (w : World) (names : list string)
    (question : string) (tr : list Event) :
  fst (structured_retriever (with_names w names) question tr)
  = concat_texts
      (map (fun e => fst (structured_retriever (with_names w [e]) question tr))
         names)
  /\ (forall e rest,
        generate_graph_visualization (with_names w (e :: rest)) question tr
        = generate_graph_visualization (with_names w [e]) question tr).
Proof.
  split; [|reflexivity].
  rewrite structured_retriever_names. f_equal. apply map_ext.
  intro e. rewrite structured_retriever_names. simpl.
  destruct (fst (retrieve_entity w e [])); [|reflexivity].
  now rewrite append_nil_r.
Qed.

(** C7 as stated fails for the index form: for the names "A" and "C" it
    holds the relationship of "A" only, so it is not the index forms of
    "A" and of "C" put together, under any numbering of the nodes. *)
Lemma C7_index_form_first_only :
  index_form TwoAnchors.world ["A"; "C"] = [("A", "OWNS", "B")]
  /\ index_form TwoAnchors.world ["A"] = [("A", "OWNS", "B")]
  /\ index_form TwoAnchors.world ["C"] = [("C", "OWNS", "D")]
  /\ index_form TwoAnchors.world ["A"; "C"]
     <> index_form TwoAnchors.world ["A"] ++ index_form TwoAnchors.world ["C"]
  /\ ~ In ("C", "OWNS", "D") (index_form TwoAnchors.world ["A"; "C"]).
Proof.
  repeat split; try (vm_compute; reflexivity).
  - vm_compute. discriminate.
  - vm_compute. intros [H|[]]. discriminate.
Qed.

(** ** A failing extractor *)

(** C8, as amended.  When the extractor raises, [structured_retriever]
    and the chain raise the same exception without any store query or
    answer synthesis; no default entity is used.  The two functions of
    [app.py] catch it: the visualization returns no file and the status
    "Error generating graph: ...", and the handler, for a question that
    is not blank, returns the chat history extended with the question
    and the error text, and the error text as status. *)
Theorem C8_extraction_error (w : World) (question msg : string)
    (chat_history : list (string * string)) (tr : list Event) :
  entity_chain w question = Raised msg ->
  structured_retriever w question tr = (Raised msg, tr ++ [EvExtract question])
  /\ chain_invoke w question tr = (Raised msg, tr ++ [EvExtract question])
  /\ generate_graph_visualization w question tr
     = (Returned (None, "❌ Error generating graph: " +++ msg, false),
        tr ++ [EvExtract question])
  /\ (strip question <> "" ->
      process_unified_query w question chat_history tr
      = (Returned (chat_history ++ [(question, "❌ Error: " +++ msg)], "",
                   None, "❌ Error: " +++ msg, false, ""),
         tr ++ [EvExtract question])).
Proof.
  intro He.
  assert (structured_retriever w question tr
          = (Raised msg, tr ++ [EvExtract question])) as Hs.
  { unfold structured_retriever, bind, call. now rewrite He. }
  assert (chain_invoke w question tr
          = (Raised msg, tr ++ [EvExtract question])) as Hc.
  { unfold chain_invoke, retriever, bind. now rewrite Hs. }
  split; [exact Hs|]. split; [exact Hc|]. split.
  - unfold generate_graph_visualization, try_except, bind, call.
    now rewrite He.
  - intro Hq. unfold process_unified_query.
    destruct (strip question); [congruence|].
    unfold bind, attempt. now rewrite Hc.
Qed.

Lemma C8_extraction_error_witness :
  process_unified_query FailingExtractor.world "Where is A?" [] []
  = (Returned ([("Where is A?", "❌ Error: rate limit exceeded")], "", None,
               "❌ Error: rate limit exceeded", false, ""),
     [EvExtract "Where is A?"]).
Proof.
  apply (C8_extraction_error FailingExtractor.world "Where is A?"
           "rate limit exceeded" [] []).
  - reflexivity.
  - vm_compute. discriminate.
Defined.

(** C8 as stated fails: the extractor raises, and neither function of
    [app.py] lets the exception through; both return. *)
Lemma C8_error_is_caught :
  entity_chain FailingExtractor.world "Where is A?"
  = Raised "rate limit exceeded"
  /\ fst (generate_graph_visualization FailingExtractor.world
            "Where is A?" [])
     = Returned (None, "❌ Error generating graph: rate limit exceeded", false)
  /\ fst (process_unified_query FailingExtractor.world "Where is A?" [] [])
     = Returned ([("Where is A?", "❌ Error: rate limit exceeded")], "", None,
                 "❌ Error: rate limit exceeded", false, "").
Proof. repeat split; vm_compute; reflexivity. Qed.

(** ** Which entities are queried *)

Lemma retrieve_entity_trace (w : World) (e : string) (tr : list Event) :
  relationship_entities (snd (retrieve_entity w e tr))
  = relationship_entities tr ++ [e].
Proof.
  unfold retrieve_entity, bind. rewrite relationship_lines_eq.
  unfold relationship_entities.
  destruct (match Cypher.relationships_query (kg w) e with
            | [] => _ | _ :: _ => _ end) as [lines|m]; simpl;
    [|now rewrite flat_map_app].
  unfold grandparent_line, bind, call, ret.
  destruct (Cypher.grandparent_query (kg w) e) as [|[[|c s]|] l]; simpl;
    rewrite !flat_map_app; simpl; now rewrite app_nil_r.
Qed.

Lemma retrieve_entities_trace (w : World) (names : list string) :
  forall acc tr,
    exists k,
      relationship_entities (snd (retrieve_entities w names acc tr))
      = relationship_entities tr ++ firstn k names
      /\ (forall text,
            fst (retrieve_entities w names acc tr) = Returned text ->
            firstn k names = names).
Proof.
  induction names as [|e rest IH]; intros acc tr.
  - exists 0. simpl. now rewrite app_nil_r.
  - simpl. unfold bind.
    pose proof (retrieve_entity_trace w e tr) as Ht.
    destruct (retrieve_entity w e tr) as [[part|m] tr']; simpl in Ht.
    + destruct (IH (acc +++ part) tr') as (k & Hk & Hall).
      exists (S k). rewrite Hk, Ht, <- app_assoc. simpl. split; [reflexivity|].
      intros text H. f_equal. now apply (Hall text).
    + exists 1. simpl. split; [exact Ht|]. intros text H. discriminate.
Qed.

Lemma relationships_query_values (g : Graph) (e : string)
    (v : option string) :
  ids_present g -> In v (Cypher.relationships_query g e) ->
  exists s, v = Some s.
Proof.
  intros Hp Hv. unfold Cypher.relationships_query in Hv.
  apply distinct_incl, in_app_or in Hv.
  assert (exists r, In r (relationships g) /\ Cypher.render r = v)
    as (r & Hr & <-).
  { destruct Hv as [Hv|Hv].
    - apply in_map_iff in Hv as (r & E & Hr). exists r. split; [|exact E].
      apply distinct_incl in Hr. now apply unwound_out_in_store in Hr.
    - apply (Permutation_in _ (sort_by_perm _ _)) in Hv.
      apply in_map_iff in Hv as (r & E & Hr). exists r. split; [|exact E].
      apply distinct_incl in Hr. now apply unwound_in_in_store in Hr. }
  destruct (Hp r Hr) as [Hs Ht]. unfold Cypher.render.
  destruct (n_id (startNode r)); [|congruence].
  destruct (n_id (endNode r)); [|congruence]. eauto.
Qed.

Lemma outputs_from_returns (rows : list (option string)) :
  (forall v, In v rows -> exists s, v = Some s) ->
  forall i, exists l, outputs_from i rows = Returned l.
Proof.
  induction rows as [|v rows IH]; intros H i; simpl; [eauto|].
  destruct (H v (or_introl eq_refl)) as [s ->].
  destruct (IH (fun u Hu => H u (or_intror Hu)) (S i)) as [l ->]. eauto.
Qed.

(** With an [id] on every node, the retrieval of an entity returns. *)
Lemma retrieve_entity_returns (w : World) (e : string) (tr : list Event) :
  ids_present (kg w) -> exists part, fst (retrieve_entity w e tr) = Returned part.
Proof.
  intro Hp. unfold retrieve_entity, bind. rewrite relationship_lines_eq.
  assert (exists lines,
            match Cypher.relationships_query (kg w) e with
            | [] =>
                Returned ("No relationships found for entity: " +++ e +++ nl)
            | _ :: _ =>
                match join_outputs (Cypher.relationships_query (kg w) e) with
                | Returned s => Returned (s +++ nl)
                | Raised m => Raised m
                end
            end = Returned lines) as [lines ->].
  { pose proof (relationships_query_values (kg w) e) as Hv.
    destruct (Cypher.relationships_query (kg w) e) as [|v rows]; [eauto|].
    unfold join_outputs.
    destruct (outputs_from_returns (v :: rows) (fun u Hu => Hv u Hp Hu) 0)
      as [l ->]. eauto. }
  unfold grandparent_line, bind, call, ret.
  destruct (Cypher.grandparent_query (kg w) e) as [|[[|c s]|] l]; simpl; eauto.
Qed.

Lemma retrieve_entities_returns (w : World) (names : list string) :
  ids_present (kg w) ->
  forall acc tr, exists text, fst (retrieve_entities w names acc tr) = Returned text.
Proof.
  intro Hp. induction names as [|e rest IH]; intros acc tr; simpl; [eauto|].
  unfold bind. destruct (retrieve_entity_returns w e tr Hp) as [part Hpart].
  destruct (retrieve_entity w e tr) as [[part'|m] tr']; simpl in Hpart;
    [apply IH|discriminate].
Qed.

(** C9.  Whatever the extractor answers, the visualization sends the
    graph-data query for exactly one entity: the first name of the
    answer, or "Youtube" when the answer is empty.  The text retrieval
    sends the relationship query for the names of the answer in order:
    for all of them whenever it returns, which it does when every node
    has an [id] (a null row raises in [join] and stops the loop at the
    name that caused it). *)
Theorem C9_primary_entity_only (w : World) (question : string)
    (names : list string) :
  entity_chain w question = Returned names ->
  graph_data_entities (snd (generate_graph_visualization w question []))
  = [match names with e :: _ => e | [] => "Youtube" end]
  /\ (exists k,
        relationship_entities (snd (structured_retriever w question []))
        = firstn k names)
  /\ (forall text,
        fst (structured_retriever w question []) = Returned text ->
        relationship_entities (snd (structured_retriever w question []))
        = names)
  /\ (ids_present (kg w) ->
      relationship_entities (snd (structured_retriever w question []))
      = names).
Proof.
  intro He. split.
  - unfold generate_graph_visualization, try_except, bind, call.
    rewrite He. simpl app. fold (primary_entity names).
    unfold get_graph_data, bind, call.
    destruct (tx_run w (primary_entity names)) as [records|m];
      [|reflexivity].
    destruct (index_records _ records) as [[[nm rs] idx]|m]; [|reflexivity].
    destruct nm as [|p nm]; [reflexivity|].
    unfold ret. cbn beta iota.
    destruct (write_html w _ _ _) as [[]|m]; reflexivity.
  - unfold structured_retriever, bind, call. rewrite He. cbn beta iota.
    change ([] ++ [EvExtract question]) with [EvExtract question].
    destruct (retrieve_entities_trace w names "" [EvExtract question])
      as (k & Hk & Hall).
    split; [exists k; exact Hk|].
    split.
    + intros text H. rewrite Hk. simpl. now apply (Hall text).
    + intro Hp.
      destruct (retrieve_entities_returns w names Hp "" [EvExtract question])
        as [text H].
      rewrite Hk. simpl. now apply (Hall text).
Qed.

Lemma C9_primary_entity_only_witness :
  graph_data_entities
    (snd (generate_graph_visualization
            (Scenario.world Scenario.graph ["B"; "C"]) "q" []))
  = ["B"].
Proof.
  apply (C9_primary_entity_only
           (Scenario.world Scenario.graph ["B"; "C"]) "q" ["B"; "C"]).
  reflexivity.
Defined.

(** ** The blank question *)

Lemma strip_blank (question : string) :
  blank question = true -> strip question = "".
Proof.
  unfold blank, strip. induction question as [|c s IH]; simpl;
    [reflexivity|].
  intro H. apply andb_prop in H as [Hc Hs]. rewrite Hc. now apply IH.
Qed.

(** C10.  For a question that is empty or white space only, the handler
    returns the chat history as it received it, an empty input box, no
    graph file, the warning as status, the button hidden and no debug
    text; it calls neither the extractor, nor the store, nor the language
    model: the trace is unchanged. *)
Theorem C10_blank_question (w : World) (question : string)
    (chat_history : list (string * string)) (tr : list Event) :
  blank question = true ->
  process_unified_query w question chat_history tr
  = (Returned (chat_history, "", None, "⚠️ Please enter a question", false,
               ""),
     tr).
Proof.
  intro H. unfold process_unified_query. now rewrite (strip_blank _ H).
Qed.

Lemma C10_blank_question_witness :
  process_unified_query (Scenario.world Scenario.graph ["A"])
    (" " +++ nl) [("hello", "hi")] []
  = (Returned ([("hello", "hi")], "", None, "⚠️ Please enter a question",
               false, ""),
     []).
Proof.
  apply (C10_blank_question (Scenario.world Scenario.graph ["A"])
           (" " +++ nl) [("hello", "hi")] []).
  reflexivity.
Defined.

(** * More properties of the code *)

(** ** What the two traversals reach *)

(** Every path found from [cur] continues the path so far by a chain of
    relationships of the store that starts at [cur]. *)
Lemma expand_out_walk (rels : list Relationship) (fuel : nat) :
  forall used cur p,
    In p (Cypher.expand_out fuel rels used cur) ->
    exists t,
      p = used ++ t /\ t <> [] /\ walk_from cur t = true /\ incl t rels.
Proof.
  induction fuel as [|k IH]; intros used cur p H; [destruct H|].
  simpl in H. apply in_flat_map in H as (r & Hr & H).
  destruct (Cypher.same_node (startNode r) cur) eqn:Es; [|destruct H].
  destruct (negb (Cypher.rel_in r used)); [|destruct H].
  destruct H as [<-|H].
  - exists [r]. repeat split; try discriminate.
    + simpl. now rewrite Es.
    + intros x [<-|[]]. exact Hr.
  - apply IH in H as (t & -> & _ & Hw & Hi).
    exists (r :: t). repeat split; try discriminate.
    + now rewrite <- app_assoc.
    + simpl. now rewrite Es.
    + now apply incl_cons.
Qed.

(** Every path found into [cur] puts, before the path so far, a chain of
    relationships of the store that ends in [cur]. *)
Lemma expand_in_walk (rels : list Relationship) (fuel : nat) :
  forall used cur p,
    In p (Cypher.expand_in fuel rels used cur) ->
    exists m t,
      p = t ++ used /\ t <> [] /\ walk_from m t = true
      /\ Cypher.same_node (walk_end m t) cur = true /\ incl t rels.
Proof.
  induction fuel as [|k IH]; intros used cur p H; [destruct H|].
  simpl in H. apply in_flat_map in H as (r & Hr & H).
  destruct (Cypher.same_node (endNode r) cur) eqn:Es; [|destruct H].
  destruct (negb (Cypher.rel_in r used)); [|destruct H].
  destruct H as [<-|H].
  - exists (startNode r), [r]. repeat split; try discriminate.
    + simpl. unfold Cypher.same_node. now rewrite String.eqb_refl.
    + exact Es.
    + intros x [<-|[]]. exact Hr.
  - apply IH in H as (m & t & -> & _ & Hw & He & Hi).
    exists m, (t ++ [r]). repeat split.
    + now rewrite <- app_assoc.
    + now destruct t.
    + rewrite walk_from_app, Hw. simpl.
      unfold Cypher.same_node in *. now rewrite String.eqb_sym, He.
    + rewrite walk_end_app. exact Es.
    + apply incl_app; [exact Hi|]. intros x [<-|[]]. exact Hr.
Qed.

Lemma flip_involutive (r : Relationship) : flip (flip r) = r.
Proof. now destruct r. Qed.

Lemma map_flip_involutive (l : list Relationship) : map flip (map flip l) = l.
Proof.
  induction l as [|r l IH]; simpl; [reflexivity|].
  now rewrite flip_involutive, IH.
Qed.

Lemma ids_map_flip (l : list Relationship) : ids (map flip l) = ids l.
Proof. unfold ids. rewrite map_map. now apply map_ext. Qed.

(** A chain that ends in [n], read backwards, is a chain of flipped
    relationships that starts at [n]. *)
Lemma walk_flip_rev (w : list Relationship) :
  forall m n,
    walk_from m w = true -> Cypher.same_node (walk_end m w) n = true ->
    walk_from n (map flip (rev w)) = true.
Proof.
  induction w as [|r w IH]; intros m n Hw He; [reflexivity|].
  simpl in Hw, He. apply andb_prop in Hw as [Hs Hw].
  simpl. rewrite map_app, walk_from_app, (IH (endNode r) n Hw He).
  simpl. rewrite andb_true_r.
  destruct w as [|r' w]; simpl.
  - exact He.
  - rewrite map_app, walk_end_app. simpl.
    simpl in Hw. apply andb_prop in Hw as [Hs' _].
    unfold Cypher.same_node in *. now rewrite String.eqb_sym.
Qed.

Section InboundCompleteness.

Variable rels : list Relationship.

Lemma expand_in_complete (q : list Relationship) :
  forall used cur fuel,
    q <> [] -> walk_from cur (map flip q) = true -> incl q rels ->
    NoDup (ids (rev q ++ used)) -> List.length q <= fuel ->
    In (rev q ++ used) (Cypher.expand_in fuel rels used cur).
Proof.
  induction q as [|r q IH]; intros used cur fuel Hne Hw Hi Hn Hl;
    [congruence|].
  destruct fuel as [|k]; [simpl in Hl; lia|].
  simpl in Hw. apply andb_prop in Hw as [Hs Hw].
  simpl rev in Hn |- *. rewrite <- app_assoc in Hn |- *. simpl in Hn |- *.
  apply in_flat_map. exists r. split; [apply Hi; now left|].
  rewrite Hs. cbn [andb].
  assert (Cypher.rel_in r used = false) as ->.
  { destruct (Cypher.rel_in r used) eqn:E; [|reflexivity].
    apply rel_in_spec in E. unfold ids in Hn. rewrite map_app in Hn.
    simpl in Hn. apply NoDup_remove_2 in Hn. exfalso. apply Hn.
    apply in_or_app. now right. }
  cbn [negb]. destruct q as [|r' q]; [now left|]. right.
  apply IH.
  - discriminate.
  - exact Hw.
  - intros x Hx. apply Hi. now right.
  - exact Hn.
  - simpl in Hl |- *. lia.
Qed.

Hypothesis rels_wf : NoDup (ids rels).

(** Every relationship on a chain into [n] is on a path of the inbound
    traversal from [n]. *)
Lemma walk_into_covered (m n : Node) (w : list Relationship)
    (r : Relationship) :
  walk_from m w = true -> Cypher.same_node (walk_end m w) n = true ->
  incl w rels -> In r w ->
  In r (List.concat (Cypher.expand_in (List.length rels) rels [] n)).
Proof.
  intros Hw He Hi Hr. apply in_split in Hr as (a & b & ->).
  rewrite walk_from_app in Hw. apply andb_prop in Hw as [_ Hw].
  rewrite walk_end_app in He.
  pose proof (walk_flip_rev (r :: b) _ n Hw He) as Hf.
  simpl rev in Hf. rewrite map_app in Hf. simpl in Hf.
  assert (NoDup (ids (map flip rels))) as Hwf' by now rewrite ids_map_flip.
  destruct (walk_to_trail (map flip rels) Hwf' (map flip (rev b)) n (flip r) Hf)
    as (t & Ht & Hti & Htn).
  { intros x Hx. apply in_app_or in Hx as [Hx|[<-|[]]].
    - apply in_map_iff in Hx as (y & <- & Hy). apply in_map, Hi.
      apply in_or_app. right. right. now apply in_rev.
    - apply in_map, Hi. apply in_or_app. right. now left. }
  set (q := map flip t ++ [r]).
  assert (map flip q = t ++ [flip r]) as Hq.
  { unfold q. rewrite map_app, map_flip_involutive. reflexivity. }
  assert (incl q rels) as Hqi.
  { intros x Hx. rewrite <- (flip_involutive x).
    assert (In (flip x) (map flip rels)) as H.
    { apply Hti. rewrite <- Hq. now apply in_map. }
    apply in_map_iff in H as (y & E & Hy).
    rewrite <- E, flip_involutive. exact Hy. }
  assert (NoDup (ids q)) as Hqn.
  { rewrite <- ids_map_flip, Hq. exact Htn. }
  apply in_concat. exists (rev q). split.
  - rewrite <- (app_nil_r (rev q)). apply expand_in_complete.
    + unfold q. now destruct (map flip t).
    + now rewrite Hq.
    + exact Hqi.
    + rewrite app_nil_r. unfold ids. rewrite map_rev.
      now apply NoDup_rev.
    + rewrite <- (length_map rel_element_id q).
      rewrite <- (length_map rel_element_id rels).
      apply NoDup_incl_length; [exact Hqn|].
      intros x Hx. apply in_map_iff in Hx as (y & <- & Hy).
      apply in_map. now apply Hqi.
  - apply in_rev. rewrite rev_involutive. unfold q.
    apply in_or_app. right. now left.
Qed.

End InboundCompleteness.

Lemma rels_in_covers (g : Graph) (entity : string) (m n : Node)
    (w : list Relationship) (r : Relationship) :
  wf_graph g -> In n (Cypher.match_anchor g entity) ->
  walk_from m w = true -> Cypher.same_node (walk_end m w) n = true ->
  incl w (relationships g) -> In r w ->
  In r (Cypher.rels_in g entity).
Proof.
  intros Hwf Hn Hw He Hi Hr.
  unfold Cypher.rels_in, Cypher.distinct_rels.
  apply (distinct_same_rel_keeps (relationships g) Hwf).
  - apply unwound_in_in_store.
  - apply in_flat_map. exists n. split; [exact Hn|].
    now apply (walk_into_covered (relationships g) Hwf m n w).
Qed.

(** X1.  The outbound sub-query returns exactly the relationships that
    lie on a chain of relationships of the store leaving an anchor of the
    entity: nothing that is not connected to an anchor, and everything
    that is. *)
Theorem outbound_reaches_exactly (g : Graph) (entity : string)
    (r : Relationship) :
  wf_graph g ->
  (In r (Cypher.rels_out g entity)
   <-> exists n w,
         In n (Cypher.match_anchor g entity) /\ walk_from n w = true
         /\ incl w (relationships g) /\ In r w).
Proof.
  intro Hwf. split.
  - intro H. unfold Cypher.rels_out, Cypher.distinct_rels in H.
    apply distinct_incl, in_flat_map in H as (n & Hn & H).
    apply in_concat in H as (p & Hp & Hr).
    apply expand_out_walk in Hp as (t & -> & _ & Hw & Hi).
    exists n, t. auto.
  - intros (n & w & Hn & Hw & Hi & Hr).
    now apply (rels_out_covers g entity n w).
Qed.

(** X2.  The inbound sub-query returns exactly the relationships that
    lie on a chain of relationships of the store ending in an anchor of
    the entity. *)
Theorem inbound_reaches_exactly (g : Graph) (entity : string)
    (r : Relationship) :
  wf_graph g ->
  (In r (Cypher.rels_in g entity)
   <-> exists n m w,
         In n (Cypher.match_anchor g entity) /\ walk_from m w = true
         /\ Cypher.same_node (walk_end m w) n = true
         /\ incl w (relationships g) /\ In r w).
Proof.
  intro Hwf. split.
  - intro H. unfold Cypher.rels_in, Cypher.distinct_rels in H.
    apply distinct_incl, in_flat_map in H as (n & Hn & H).
    apply in_concat in H as (p & Hp & Hr).
    apply expand_in_walk in Hp as (m & t & -> & _ & Hw & He & Hi).
    rewrite app_nil_r in Hr. exists n, m, t. auto.
  - intros (n & m & w & Hn & Hw & He & Hi & Hr).
    now apply (rels_in_covers g entity m n w).
Qed.

Lemma outbound_reaches_exactly_witness :
  In CycleScenario.cb (Cypher.rels_out CycleScenario.graph "a").
Proof.
  apply (outbound_reaches_exactly CycleScenario.graph "a" CycleScenario.cb
           cycle_graph_wf).
  exists CycleScenario.a,
    [CycleScenario.ab; CycleScenario.bc; CycleScenario.cb].
  repeat split.
  - simpl. now left.
  - intros x Hx. simpl in Hx |- *. intuition.
  - simpl. auto.
Defined.

Lemma inbound_reaches_exactly_witness :
  In CycleScenario.ab (Cypher.rels_in CycleScenario.graph "c").
Proof.
  apply (inbound_reaches_exactly CycleScenario.graph "c" CycleScenario.ab
           cycle_graph_wf).
  exists CycleScenario.c, CycleScenario.a,
    [CycleScenario.ab; CycleScenario.bc].
  repeat split.
  - simpl. auto.
  - intros x Hx. simpl in Hx |- *. intuition.
  - simpl. auto.
Defined.

(** ** The order of the inbound rows *)

Lemma ascii_compare_refl (a : ascii) : Ascii.compare a a = Eq.
Proof. unfold Ascii.compare. apply BinNat.N.compare_refl. Qed.

Lemma string_leb_trans (a : string) :
  forall b c, String.leb a b = true -> String.leb b c = true ->
    String.leb a c = true.
Proof.
  unfold String.leb.
  induction a as [|x a IH]; intros [|y b] [|z c]; simpl; try congruence.
  unfold Ascii.compare.
  destruct (BinNat.N.compare_spec (N_of_ascii x) (N_of_ascii y)) as [E|L|G];
    try congruence;
    destruct (BinNat.N.compare_spec (N_of_ascii y) (N_of_ascii z))
      as [E'|L'|G']; try congruence.
  - rewrite E, E', BinNat.N.compare_refl. apply IH.
  - intros _ _. rewrite E.
    now apply BinNat.N.compare_lt_iff in L' as ->.
  - intros _ _. rewrite <- E'.
    now apply BinNat.N.compare_lt_iff in L as ->.
  - intros _ _.
    assert (BinNat.N.lt (N_of_ascii x) (N_of_ascii z)) as H
      by (eapply BinNat.N.lt_trans; eassumption).
    now apply BinNat.N.compare_lt_iff in H as ->.
Qed.

Lemma value_leb_total (a b : option string) :
  Cypher.value_leb a b = true \/ Cypher.value_leb b a = true.
Proof.
  destruct a as [a|], b as [b|]; simpl; auto. apply String.leb_total.
Qed.

Lemma value_leb_trans (a b c : option string) :
  Cypher.value_leb a b = true -> Cypher.value_leb b c = true ->
  Cypher.value_leb a c = true.
Proof.
  destruct a as [a|], b as [b|], c as [c|]; simpl; try congruence.
  apply string_leb_trans.
Qed.

Section SortBy.

Context {A : Type} (leb : A -> A -> bool).
Hypothesis leb_total : forall x y, leb x y = true \/ leb y x = true.
Hypothesis leb_trans :
  forall x y z, leb x y = true -> leb y z = true -> leb x z = true.

Lemma insert_sorted_sorted (x : A) (l : list A) :
  StronglySorted (fun a b => leb a b = true) l ->
  StronglySorted (fun a b => leb a b = true) (insert_sorted leb x l).
Proof.
  induction 1 as [|y l Hl IH Hy]; simpl; [repeat constructor|].
  destruct (leb x y) eqn:E.
  - constructor; [now constructor|]. constructor; [exact E|].
    rewrite Forall_forall in Hy |- *. intros z Hz.
    apply leb_trans with y; auto.
  - constructor; [exact IH|].
    rewrite Forall_forall in Hy |- *. intros z Hz.
    apply (Permutation_in _ (insert_sorted_perm leb x l)) in Hz.
    destruct Hz as [<-|Hz]; [|now apply Hy].
    destruct (leb_total x y) as [H|H]; congruence.
Qed.

Lemma sort_by_sorted (l : list A) :
  StronglySorted (fun a b => leb a b = true) (sort_by leb l).
Proof.
  induction l as [|x l IH]; simpl; [constructor|].
  now apply insert_sorted_sorted.
Qed.

End SortBy.

Lemma filter_sorted {A : Type} (R : A -> A -> Prop) (f : A -> bool)
    (l : list A) :
  StronglySorted R l -> StronglySorted R (filter f l).
Proof.
  induction 1 as [|x l Hl IH Hx]; simpl; [constructor|].
  destruct (f x); [|exact IH]. constructor; [exact IH|].
  rewrite Forall_forall in Hx |- *. intros y Hy.
  apply filter_In in Hy. now apply Hx.
Qed.

Lemma distinct_sorted {A : Type} (R : A -> A -> Prop)
    (eqb : A -> A -> bool) (l : list A) :
  StronglySorted R l -> StronglySorted R (distinct eqb l).
Proof.
  induction 1 as [|x l Hl IH Hx]; simpl; [constructor|].
  constructor; [now apply filter_sorted|].
  rewrite Forall_forall in Hx |- *. intros y Hy.
  apply filter_In in Hy as [Hy _]. apply distinct_incl in Hy. now apply Hx.
Qed.

(** X3.  The rows of the inbound sub-query come out in ascending order
    of the rendered string, null last.  When no relationship of the
    store leaves an anchor of the entity, these are all the rows, so the
    relationship query as a whole is in ascending order. *)
Theorem inbound_rows_sorted (g : Graph) (entity : string) :
  StronglySorted value_le
    (Cypher.order_by (map Cypher.render (Cypher.rels_in g entity)))
  /\ ((forall n r,
         In n (Cypher.match_anchor g entity) -> In r (relationships g) ->
         Cypher.same_node (startNode r) n = false) ->
      StronglySorted value_le (Cypher.relationships_query g entity)).
Proof.
  assert (StronglySorted value_le
            (Cypher.order_by (map Cypher.render (Cypher.rels_in g entity))))
    as Hs.
  { apply (sort_by_sorted Cypher.value_leb value_leb_total value_leb_trans). }
  split; [exact Hs|]. intro Hout.
  assert (Cypher.rels_out g entity = []) as Ho.
  { unfold Cypher.rels_out, Cypher.distinct_rels, Cypher.paths_out.
    apply distinct_nil, flat_map_nil. intros n Hn.
    assert (Cypher.expand_out (List.length (relationships g))
              (relationships g) [] n = []) as ->; [|reflexivity].
    destruct (List.length (relationships g)); [reflexivity|]. simpl.
    apply flat_map_nil. intros r Hr. now rewrite (Hout n r Hn Hr). }
  unfold Cypher.relationships_query. rewrite Ho. simpl.
  now apply distinct_sorted.
Qed.

Lemma inbound_rows_sorted_witness :
  StronglySorted value_le (Cypher.relationships_query Scenario.graph "c").
Proof.
  apply (inbound_rows_sorted Scenario.graph "c").
  intros n r [<-|[]] [<-|[<-|[]]]; reflexivity.
Defined.

(** ** The text form and the index form *)

Lemma distinct_covers {A : Type} (eqb : A -> A -> bool) (l : list A) (x : A) :
  (forall a, eqb a a = true) ->
  (forall a b c, eqb a b = true -> eqb b c = true -> eqb a c = true) ->
  In x l -> exists y, In y (distinct eqb l) /\ eqb y x = true.
Proof.
  intros Hrefl Htrans. induction l as [|a l IH]; intros Hx; [destruct Hx|].
  simpl. destruct Hx as [->|Hx]; [exists x; auto|].
  destruct (IH Hx) as (y & Hy & E).
  destruct (eqb a y) eqn:Eay.
  - exists a. split; [now left|]. now apply Htrans with y.
  - exists y. split; [|exact E]. right. apply filter_In. now rewrite Eay.
Qed.

Lemma render_row_of (r : Relationship) :
  render_row (Cypher.row_of r) = Cypher.render r.
Proof. reflexivity. Qed.

(** The relationships behind the rows of either query. *)
Lemma retrieved_in_store (g : Graph) (entity : string) (r : Relationship) :
  In r (Cypher.rels_out g entity ++ Cypher.rels_in g entity) ->
  In r (relationships g).
Proof.
  intro H. apply in_app_or in H as [H|H]; apply distinct_incl in H.
  - now apply unwound_out_in_store in H.
  - now apply unwound_in_in_store in H.
Qed.

Lemma relationships_query_spec (g : Graph) (entity : string)
    (v : option string) :
  In v (Cypher.relationships_query g entity)
  <-> exists r,
        In r (Cypher.rels_out g entity ++ Cypher.rels_in g entity)
        /\ Cypher.render r = v.
Proof.
  unfold Cypher.relationships_query. split.
  - intro H. apply distinct_incl, in_app_or in H as [H|H].
    + apply in_map_iff in H as (r & E & Hr). exists r. split; [|exact E].
      apply in_or_app. now left.
    + apply (Permutation_in _ (sort_by_perm _ _)) in H.
      apply in_map_iff in H as (r & E & Hr). exists r. split; [|exact E].
      apply in_or_app. now right.
  - intros (r & Hr & <-). apply distinct_keeps.
    + intros a b _ _. apply value_eqb_spec.
    + apply in_or_app. apply in_app_or in Hr as [Hr|Hr].
      * left. now apply in_map.
      * right. apply (Permutation_in _ (Permutation_sym (sort_by_perm _ _))).
        now apply in_map.
Qed.

Lemma graph_data_query_incl (g : Graph) (entity : string) (row : Cypher.Row) :
  In row (Cypher.graph_data_query g entity) ->
  exists r,
    In r (Cypher.rels_out g entity ++ Cypher.rels_in g entity)
    /\ row = Cypher.row_of r.
Proof.
  unfold Cypher.graph_data_query. intro H.
  apply distinct_incl in H. rewrite <- map_app in H.
  apply in_map_iff in H as (r & E & Hr). eauto.
Qed.

Lemma end_nodes_in (g : Graph) (r : Relationship) :
  In r (relationships g) ->
  In (startNode r) (end_nodes g) /\ In (endNode r) (end_nodes g).
Proof.
  intro H. unfold end_nodes. split; apply in_flat_map; exists r; simpl; auto.
Qed.

(** X4.  In a store with one record per node identity, the text query
    and the graph-data query return the same relationships: a value is
    a row of the text query exactly when it is the rendering
    "source.id -[type]-> target.id" of a record of the graph-data
    query. *)
Theorem text_rows_render_index_rows (g : Graph) (entity : string)
    (v : option string) :
  nodes_consistent g ->
  (In v (Cypher.relationships_query g entity)
   <-> exists row,
         In row (Cypher.graph_data_query g entity) /\ render_row row = v).
Proof.
  intro Hc. rewrite relationships_query_spec. split.
  - intros (r & Hr & <-).
    destruct (distinct_covers Cypher.row_eqb
                (map Cypher.row_of
                   (Cypher.rels_out g entity ++ Cypher.rels_in g entity))
                (Cypher.row_of r) row_eqb_refl row_eqb_trans)
      as (row & Hrow & E); [now apply in_map|].
    rewrite map_app in Hrow. fold (Cypher.graph_data_query g entity) in Hrow.
    exists row. split; [exact Hrow|].
    destruct (graph_data_query_incl g entity row Hrow) as (r' & Hr' & ->).
    apply row_eqb_spec in E. simpl in E. destruct E as (Es & Et & Ee).
    apply retrieved_in_store, end_nodes_in in Hr as [Hr1 Hr2].
    apply retrieved_in_store, end_nodes_in in Hr' as [Hr1' Hr2'].
    rewrite render_row_of. unfold Cypher.render.
    now rewrite (Hc _ _ Hr1' Hr1 Es), (Hc _ _ Hr2' Hr2 Ee), Et.
  - intros (row & Hrow & <-).
    destruct (graph_data_query_incl g entity row Hrow) as (r & Hr & ->).
    exists r. split; [exact Hr|reflexivity].
Qed.

Lemma scenario_nodes_consistent : nodes_consistent Scenario.graph.
Proof.
  intros a b Ha Hb E. simpl in Ha, Hb.
  repeat match goal with
         | H : _ \/ _ |- _ => destruct H as [<-|H]
         | H : False |- _ => destruct H
         end;
    try reflexivity; discriminate.
Qed.

Lemma text_rows_render_index_rows_witness :
  exists row,
    In row (Cypher.graph_data_query Scenario.graph "b")
    /\ render_row row = Some "A -[WORKS_FOR]-> B".
Proof.
  apply (text_rows_render_index_rows Scenario.graph "b"
           (Some "A -[WORKS_FOR]-> B") scenario_nodes_consistent).
  vm_compute. auto.
Defined.

(** ** The grandparent probe *)

Lemma two_hops_spec (g : Graph) (n grand : Node) :
  In grand (Cypher.two_hops g n)
  <-> exists r1 r2,
        In r1 (relationships g) /\ In r2 (relationships g)
        /\ Cypher.same_node (startNode r1) n = true
        /\ Cypher.same_node (startNode r2) (endNode r1) = true
        /\ Cypher.same_rel r2 r1 = false
        /\ grand = endNode r2.
Proof.
  unfold Cypher.two_hops. rewrite in_flat_map. split.
  - intros (r1 & H1 & H).
    destruct (Cypher.same_node (startNode r1) n) eqn:E1; [|destruct H].
    apply in_flat_map in H as (r2 & H2 & H).
    destruct (Cypher.same_node (startNode r2) (endNode r1)) eqn:E2;
      [|destruct H].
    destruct (Cypher.same_rel r2 r1) eqn:E3; [destruct H|].
    destruct H as [<-|[]]. exists r1, r2. repeat split; assumption.
  - intros (r1 & r2 & H1 & H2 & E1 & E2 & E3 & ->).
    exists r1. split; [exact H1|]. rewrite E1.
    apply in_flat_map. exists r2. split; [exact H2|].
    rewrite E2, E3. now left.
Qed.

(** X5.  The grandparent probe always returns one line.  When the line
    names a grandparent, its id is the non-empty [id] of a node that two
    different relationships of the store, one after the other, reach from
    an anchor of the entity; otherwise the line says that none was
    found. *)
Theorem grandparent_line_sound (w : World) (e : string) (tr : list Event) :
  exists text,
    grandparent_line w e tr = (Returned text, tr ++ [EvGrandparent e])
    /\ (text = "No grandparent found for " +++ e +++ nl
        \/ exists n r1 r2 c x,
             In n (Cypher.match_anchor (kg w) e)
             /\ In r1 (relationships (kg w)) /\ In r2 (relationships (kg w))
             /\ Cypher.same_node (startNode r1) n = true
             /\ Cypher.same_node (startNode r2) (endNode r1) = true
             /\ Cypher.same_rel r2 r1 = false
             /\ n_id (endNode r2) = Some (String c x)
             /\ text = "Grandparent id of " +++ e +++ ": " +++ String c x
                         +++ nl).
Proof.
  unfold grandparent_line, bind, call, ret.
  destruct (Cypher.grandparent_query (kg w) e) as [|[[|c x]|] l] eqn:E;
    eexists; (split; [reflexivity|]); try (now left).
  right.
  assert (In (Some (String c x)) (Cypher.grandparent_query (kg w) e)) as H
    by (rewrite E; now left).
  unfold Cypher.grandparent_query in H.
  apply firstn_In, distinct_incl, in_flat_map in H as (n & Hn & H).
  unfold Cypher.grand_ids in H.
  destruct (Cypher.two_hops (kg w) n) as [|grand hops] eqn:Eh.
  { destruct H as [H|[]]. discriminate. }
  apply in_map_iff in H as (g' & Hid & Hg). rewrite <- Eh in Hg.
  apply two_hops_spec in Hg
    as (r1 & r2 & H1 & H2 & E1 & E2 & E3 & ->).
  exists n, r1, r2, c, x. auto 10.
Qed.

(** ** Relationships whose end node has no [id] *)

Lemma outputs_from_null (rows : list (option string)) :
  forall i,
    In None rows ->
    exists k,
      outputs_from i rows
      = Raised ("sequence item " +++ str_of_nat (i + k)
                  +++ ": expected str instance, NoneType found")
      /\ nth_error rows k = Some None
      /\ (forall j, j < k -> exists s, nth_error rows j = Some (Some s)).
Proof.
  induction rows as [|[s|] rows IH]; intros i H; [destruct H| |].
  - destruct H as [H|H]; [discriminate|].
    destruct (IH (S i) H) as (k & E & Hk & Hj).
    exists (S k). simpl. rewrite E, Nat.add_succ_r.
    split; [reflexivity|]. split; [exact Hk|].
    intros [|j] Hlt; simpl; [eauto|]. apply Hj. lia.
  - exists 0. simpl. rewrite Nat.add_0_r.
    split; [reflexivity|]. split; [reflexivity|]. intros j Hj. lia.
Qed.

Lemma retrieve_entity_rows_returns (w : World) (e : string)
    (tr : list Event) :
  ~ In None (Cypher.relationships_query (kg w) e) ->
  exists text, fst (retrieve_entity w e tr) = Returned text.
Proof.
  intro Hn. unfold retrieve_entity, bind. rewrite relationship_lines_eq.
  assert (forall v, In v (Cypher.relationships_query (kg w) e) ->
                    exists s, v = Some s) as Hv.
  { intros [s|] Hin; [eauto|contradiction]. }
  assert (exists lines,
            match Cypher.relationships_query (kg w) e with
            | [] =>
                Returned ("No relationships found for entity: " +++ e +++ nl)
            | _ :: _ =>
                match join_outputs (Cypher.relationships_query (kg w) e) with
                | Returned s => Returned (s +++ nl)
                | Raised m => Raised m
                end
            end = Returned lines) as [lines ->].
  { destruct (Cypher.relationships_query (kg w) e) as [|v rows]; [eauto|].
    unfold join_outputs.
    destruct (outputs_from_returns (v :: rows) Hv 0) as [l ->]. eauto. }
  unfold grandparent_line, bind, call, ret.
  destruct (Cypher.grandparent_query (kg w) e) as [|[[|c s]|] l]; simpl; eauto.
Qed.

(** X6.  The text retrieval of an entity raises exactly when one of the
    relationships it retrieved has an end node without [id]: the row is
    then null, [join] refuses it with a [TypeError] that names the
    position of the first null row, and the grandparent query is not
    sent.  Without such a relationship it returns. *)
Theorem text_raises_on_missing_id (w : World) (e : string)
    (tr : list Event) :
  (In None (Cypher.relationships_query (kg w) e)
   <-> exists r,
         In r (Cypher.rels_out (kg w) e ++ Cypher.rels_in (kg w) e)
         /\ (n_id (startNode r) = None \/ n_id (endNode r) = None))
  /\ (In None (Cypher.relationships_query (kg w) e) ->
      exists k,
        retrieve_entity w e tr
        = (Raised ("sequence item " +++ str_of_nat k
                     +++ ": expected str instance, NoneType found"),
           tr ++ [EvRelationships e])
        /\ nth_error (Cypher.relationships_query (kg w) e) k = Some None
        /\ (forall j, j < k ->
              exists s,
                nth_error (Cypher.relationships_query (kg w) e) j
                = Some (Some s)))
  /\ (~ In None (Cypher.relationships_query (kg w) e) ->
      exists text, fst (retrieve_entity w e tr) = Returned text).
Proof.
  split; [|split].
  - rewrite relationships_query_spec. split.
    + intros (r & Hr & E). exists r. split; [exact Hr|].
      unfold Cypher.render in E.
      destruct (n_id (startNode r)); [|now left].
      destruct (n_id (endNode r)); [discriminate|now right].
    + intros (r & Hr & H). exists r. split; [exact Hr|].
      unfold Cypher.render. destruct H as [-> | ->]; [reflexivity|].
      now destruct (n_id (startNode r)).
  - intro H. destruct (outputs_from_null _ 0 H) as (k & E & Hk & Hj).
    exists k. split; [|split; [exact Hk|exact Hj]].
    unfold retrieve_entity, bind. rewrite relationship_lines_eq.
    unfold join_outputs. rewrite E.
    destruct (Cypher.relationships_query (kg w) e); [destruct H|reflexivity].
  - apply retrieve_entity_rows_returns.
Qed.

Lemma text_raises_on_missing_id_witness :
  exists k,
    retrieve_entity (Scenario.world NoIdScenario.graph ["A"]) "A" []
    = (Raised ("sequence item " +++ str_of_nat k
                 +++ ": expected str instance, NoneType found"),
       [EvRelationships "A"]).
Proof.
  destruct (text_raises_on_missing_id
              (Scenario.world NoIdScenario.graph ["A"]) "A" [])
    as (_ & H & _).
  destruct H as (k & E & _); [vm_compute; auto|].
  exists k. exact E.
Defined.

(** ** The node map as a numbering *)

Lemma length_distinct_le {A : Type} (eqb : A -> A -> bool) (l : list A) :
  List.length (distinct eqb l) <= List.length l.
Proof.
  induction l as [|a l IH]; simpl; [lia|].
  pose proof (filter_length_le (fun y => negb (eqb a y)) (distinct eqb l)).
  lia.
Qed.

Lemma length_endpoints (rs : list RelEntry) :
  List.length (endpoints rs) = 2 * List.length rs.
Proof.
  unfold endpoints. induction rs as [|en rs IH]; simpl; [reflexivity|].
  rewrite IH. lia.
Qed.

(** What the record loop establishes, for every answer of the store. *)
Lemma get_graph_data_inv (w : World) (entity : string) (tr : list Event)
    (records : list Cypher.Row) :
  tx_run w entity = Returned records ->
  exists nm rs,
    get_graph_data w entity tr
    = (Returned (nm, rs), tr ++ [EvGraphData entity])
    /\ index_inv (nm, rs, List.length nm)
    /\ Forall2 (indexes nm) records rs.
Proof.
  intro Hq.
  destruct (index_records_ok records [] [] 0)
    as (nm & rs & idx & ext & E & Hinv & _ & Hall).
  { repeat split; constructor. }
  simpl in E, Hinv. exists nm, rs.
  assert (List.length nm = idx) as Hlen.
  { destruct Hinv as (Hs & _). rewrite <- (length_map snd nm), Hs.
    apply length_seq. }
  rewrite Hlen. split; [|split; [exact Hinv|exact Hall]].
  unfold get_graph_data, bind, call. rewrite Hq. cbn beta iota.
  match goal with
  | |- match ?x with _ => _ end _ = _ =>
      replace x with (Returned (nm, rs, idx)) by (symmetry; exact E)
  end.
  reflexivity.
Qed.

(** X7.  Whenever the store answers, [get_graph_data] returns one
    relationship entry per record and at most two nodes per record,
    and no node at all exactly when there is no record.  The node map
    numbers the node keys one-to-one: two lookups give the same index
    exactly when the keys are the same, so nodes that carry the same
    [id] share an index and nodes with different keys never do. *)
Theorem node_map_numbers_keys (w : World) (entity : string)
    (tr : list Event) (records : list Cypher.Row) :
  tx_run w entity = Returned records ->
  exists nm rs,
    get_graph_data w entity tr
    = (Returned (nm, rs), tr ++ [EvGraphData entity])
    /\ List.length rs = List.length records
    /\ List.length nm <= 2 * List.length records
    /\ (nm = [] <-> records = [])
    /\ (forall k k' i i',
          dict_get k nm = Some i -> dict_get k' nm = Some i' ->
          (i = i' <-> k = k'))
    /\ (forall k i, In (k, i) nm <-> dict_get k nm = Some i).
Proof.
  intro Hq.
  destruct (get_graph_data_inv w entity tr records Hq)
    as (nm & rs & E & (Hs & Hn & Hd) & Hall).
  exists nm, rs. split; [exact E|].
  assert (List.length rs = List.length records) as Hlen.
  { symmetry. clear -Hall. induction Hall; simpl; auto. }
  assert (forall k i, In (k, i) nm <-> dict_get k nm = Some i) as Hget.
  { clear -Hn. induction nm as [|[k' v'] nm IH]; intros k i; simpl.
    - split; [intros []|discriminate].
    - simpl in Hn. apply NoDup_cons_iff in Hn as [Hk Hn].
      destruct (String.eqb_spec k k') as [->|Hne].
      + split.
        * intros [[= ->]|Hin]; [reflexivity|].
          exfalso. apply Hk. now apply (in_map fst) in Hin.
        * intros [= ->]. now left.
      + rewrite <- (IH Hn). split; [|now right].
        intros [[= -> ->]|Hin]; [congruence|exact Hin]. }
  split; [exact Hlen|]. split; [|split; [|split; [|exact Hget]]].
  - rewrite <- Hlen, <- length_endpoints.
    rewrite <- (length_seq (List.length nm) 0), <- Hd.
    apply length_distinct_le.
  - split.
    + intros ->. simpl in Hd. apply distinct_nil in Hd.
      destruct rs as [|en rs]; [|discriminate].
      destruct records; [reflexivity|discriminate].
    + intros ->. inversion Hall; subst. simpl in Hd.
      destruct nm; [reflexivity|discriminate].
  - intros k k' i i' Hk Hk'. split.
    + intros <-. apply Hget in Hk, Hk'.
      assert (NoDup (map snd nm)) as Hv by (rewrite Hs; apply seq_NoDup).
      clear -Hk Hk' Hv. induction nm as [|[k0 v0] nm IH]; [destruct Hk|].
      simpl in Hv. apply NoDup_cons_iff in Hv as [Hv0 Hv].
      destruct Hk as [Hk|Hk], Hk' as [Hk'|Hk'].
      * congruence.
      * injection Hk as -> ->. exfalso. apply Hv0.
        now apply (in_map snd) in Hk'.
      * injection Hk' as -> ->. exfalso. apply Hv0.
        now apply (in_map snd) in Hk.
      * now apply IH.
    + intros <-. congruence.
Qed.

Lemma node_map_numbers_keys_witness :
  exists nm rs,
    get_graph_data (Scenario.world Scenario.graph []) "b" []
    = (Returned (nm, rs), [EvGraphData "b"])
    /\ List.length rs = 2.
Proof.
  destruct (node_map_numbers_keys (Scenario.world Scenario.graph []) "b" []
              (Cypher.graph_data_query Scenario.graph "b") eq_refl)
    as (nm & rs & E & Hl & _).
  exists nm, rs. split; [exact E|exact Hl].
Defined.

(** ** The outcomes of the visualization *)

Lemma get_graph_data_raised (w : World) (entity msg : string)
    (tr : list Event) :
  tx_run w entity = Raised msg ->
  get_graph_data w entity tr = (Raised msg, tr ++ [EvGraphData entity]).
Proof. intro H. unfold get_graph_data, bind, call. now rewrite H. Qed.

Lemma written_net_none (l : list Event) (f : string)
    (ns : list (nat * string)) (es : list RelEntry) :
  written_net l = None -> ~ In (EvWriteHtml f ns es) l.
Proof.
  induction l as [|ev l IH]; simpl; [intros _ []|].
  destruct ev; try discriminate; intros H [E|Hin];
    try discriminate; now apply IH.
Qed.

(** The visualization either returns no file, [write_html] not having
    been called, or calls it for a non-empty node map and returns the
    file when it was written and the error when it was not. *)
Lemma generate_graph_visualization_cases (w : World) (question : string)
    (tr : list Event) :
  (exists status new,
     generate_graph_visualization w question tr
     = (Returned (None, status, false), tr ++ new)
     /\ written_net new = None)
  \/ (exists names nm rs,
        entity_chain w question = Returned names
        /\ nm <> []
        /\ index_inv (nm, rs, List.length nm)
        /\ generate_graph_visualization w question tr
           = (match
                write_html w
                  (replace_char " " "_" (toLower (primary_entity names))
                     +++ "_graph.html")
                  (net_nodes_of nm) rs
              with
              | Returned _ =>
                  Returned
                    (Some (replace_char " " "_"
                             (toLower (primary_entity names))
                             +++ "_graph.html"),
                     "✅ Graph generated for entity: **"
                       +++ primary_entity names
                       +++ "** | Nodes: " +++ str_of_nat (List.length nm)
                       +++ " | Relationships: "
                       +++ str_of_nat (List.length rs),
                     true)
              | Raised m =>
                  Returned (None, "❌ Error generating graph: " +++ m, false)
              end,
              tr ++ [EvExtract question; EvGraphData (primary_entity names);
                     EvWriteHtml
                       (replace_char " " "_" (toLower (primary_entity names))
                          +++ "_graph.html")
                       (net_nodes_of nm) rs])).
Proof.
  unfold generate_graph_visualization, try_except, bind, call.
  destruct (entity_chain w question) as [names|m] eqn:He.
  - destruct (tx_run w (primary_entity names)) as [records|m] eqn:Hq.
    + destruct (get_graph_data_inv w (primary_entity names)
                  (tr ++ [EvExtract question]) records Hq)
        as (nm & rs & E & Hinv & _).
      rewrite E. destruct nm as [|kv nm].
      * left. eexists. exists [EvExtract question;
                                EvGraphData (primary_entity names)].
        unfold ret. rewrite <- app_assoc. split; reflexivity.
      * right. exists names, (kv :: nm), rs.
        split; [reflexivity|]. split; [discriminate|]. split; [exact Hinv|].
        unfold ret. cbn beta iota. rewrite <- !app_assoc.
        destruct (write_html w _ _ _) as [u|m]; reflexivity.
    + rewrite (get_graph_data_raised _ _ _ _ Hq).
      left. eexists. exists [EvExtract question;
                              EvGraphData (primary_entity names)].
      unfold ret. rewrite <- app_assoc. split; reflexivity.
  - left. eexists. exists [EvExtract question]. unfold ret.
    split; reflexivity.
Qed.

(** X8.  The visualization never raises: whether the extractor answers
    or raises, whatever the store returns or raises for a spliced name,
    and whether or not the file can be written, it returns a file name
    or none, a status and the state of the button.  The button is shown
    exactly when a file name is returned.  A file name is returned
    exactly when [write_html] was called for it and succeeded; when
    [write_html] raises, no file name is returned and the status carries
    its exception. *)
Theorem visualization_always_returns (w : World) (question : string)
    (tr : list Event) :
  exists file status button new,
    generate_graph_visualization w question tr
    = (Returned (file, status, button), tr ++ new)
    /\ (button = true <-> file <> None)
    /\ (forall name,
          file = Some name
          <-> exists net_nodes net_edges,
                In (EvWriteHtml name net_nodes net_edges) new
                /\ write_html w name net_nodes net_edges = Returned tt)
    /\ (forall name net_nodes net_edges msg,
          In (EvWriteHtml name net_nodes net_edges) new ->
          write_html w name net_nodes net_edges = Raised msg ->
          file = None /\ status = "❌ Error generating graph: " +++ msg).
Proof.
  destruct (generate_graph_visualization_cases w question tr)
    as [(status & new & E & Hw)|(names & nm & rs & _ & _ & _ & E)].
  - exists None, status, false, new. split; [exact E|].
    split; [split; congruence|]. split.
    + intro name. split; [discriminate|].
      intros (ns & es & Hin & _).
      now apply (written_net_none new name ns es) in Hin.
    + intros name ns es msg Hin _.
      now apply (written_net_none new name ns es) in Hin.
  - destruct (write_html w _ _ _) as [[]|m] eqn:Hw;
      eexists _, _, _, _; (split; [exact E|]);
      (split; [split; congruence|]); split.
    + intro name. split.
      * intros [= <-]. eexists _, _. split; [|exact Hw].
        right. right. now left.
      * intros (ns & es & [H|[H|[H|[]]]] & _); try discriminate.
        now injection H as <- _ _.
    + intros name ns es msg [H|[H|[H|[]]]] Hr; try discriminate.
      injection H as <- <- <-. congruence.
    + intro name. split; [discriminate|].
      intros (ns & es & [H|[H|[H|[]]]] & Hr); try discriminate.
      injection H as <- <- <-. congruence.
    + intros name ns es msg [H|[H|[H|[]]]] Hr; try discriminate.
      injection H as <- <- <-. split; [reflexivity|]. congruence.
Qed.

(** ** What is handed to pyvis *)

Lemma sort_by_sorted_id {A : Type} (leb : A -> A -> bool) (l : list A) :
  StronglySorted (fun a b => leb a b = true) l -> sort_by leb l = l.
Proof.
  induction 1 as [|x l Hl IH Hx]; simpl; [reflexivity|].
  rewrite IH. destruct l as [|y l]; simpl; [reflexivity|].
  apply Forall_inv in Hx. now rewrite Hx.
Qed.

Lemma node_map_sorted (nm : NodeMap) :
  forall start len,
    map snd nm = seq start len ->
    StronglySorted (fun a b => (snd a <=? snd b) = true) nm.
Proof.
  induction nm as [|[k v] nm IH]; intros start len H; [constructor|].
  destruct len as [|len]; [discriminate|]. simpl in H.
  injection H as -> H. constructor; [now apply (IH (S start) len)|].
  apply Forall_forall. intros [k' v'] Hin. simpl.
  apply (in_map snd) in Hin. rewrite H in Hin. apply in_seq in Hin.
  apply Nat.leb_le. simpl in Hin. lia.
Qed.

Lemma net_nodes_of_dense (nm : NodeMap) (n : nat) :
  map snd nm = seq 0 n ->
  net_nodes_of nm = map (fun kv => (snd kv, fst kv)) nm.
Proof.
  intro H. unfold net_nodes_of.
  now rewrite (sort_by_sorted_id _ _ (node_map_sorted nm 0 n H)).
Qed.

(** X9.  A network that the visualization writes is well formed: its
    nodes are listed by index, the indices being 0, 1, ..., n-1 without
    gap, in the order of the node map, which [sorted] leaves as it is;
    the node labels are distinct; there is at least one node; and both
    ends of every edge are nodes of the network, which is what pyvis asks
    of [add_edge]. *)
Theorem written_network_well_formed (w : World) (question filename : string)
    (net_nodes : list (nat * string)) (net_edges : list RelEntry) :
  In (EvWriteHtml filename net_nodes net_edges)
    (snd (generate_graph_visualization w question [])) ->
  net_nodes <> []
  /\ map fst net_nodes = seq 0 (List.length net_nodes)
  /\ NoDup (map snd net_nodes)
  /\ (forall en, In en net_edges ->
        In (e_source en) (map fst net_nodes)
        /\ In (e_target en) (map fst net_nodes)).
Proof.
  intro Hin.
  destruct (generate_graph_visualization_cases w question [])
    as [(status & new & E & Hw)|(names & nm & rs & _ & Hne & Hinv & E)];
    rewrite E in Hin; simpl in Hin.
  - exfalso. now apply (written_net_none new filename net_nodes net_edges).
  - destruct Hin as [H|[H|[H|[]]]]; try discriminate.
    injection H as _ <- <-. destruct Hinv as (Hs & Hn & Hd).
    rewrite (net_nodes_of_dense nm _ Hs).
    assert (map fst (map (fun kv : string * nat => (snd kv, fst kv)) nm)
            = map snd nm) as Hfst by (rewrite map_map; reflexivity).
    assert (map snd (map (fun kv : string * nat => (snd kv, fst kv)) nm)
            = map fst nm) as Hsnd by (rewrite map_map; reflexivity).
    rewrite Hfst, Hsnd, length_map.
    split; [now destruct nm|]. split; [exact Hs|]. split; [exact Hn|].
    intros en Hen. rewrite Hs, <- Hd.
    split; apply distinct_keeps;
      try (intros a b _ _; apply Nat.eqb_eq);
      unfold endpoints; apply in_flat_map; exists en; simpl; auto.
Qed.

Lemma written_network_well_formed_witness :
  map fst [(0, "B"); (1, "C"); (2, "A")] = seq 0 3.
Proof.
  apply (written_network_well_formed
           (Scenario.world Scenario.graph ["b"]) "q" "b_graph.html"
           [(0, "B"); (1, "C"); (2, "A")]
           [mkRelEntry 0 1 "LOCATED_IN"; mkRelEntry 2 0 "WORKS_FOR"]).
  vm_compute. auto.
Defined.

(** ** The name of the file *)

Lemma has_char_append (c : ascii) (a b : string) :
  has_char c (a +++ b) = has_char c a || has_char c b.
Proof.
  induction a as [|x a IH]; simpl; [reflexivity|].
  now rewrite IH, orb_assoc.
Qed.

Lemma has_char_replace (c a b : ascii) (s : string) :
  has_char c (replace_char a b s) = true ->
  c = b \/ (c <> a /\ has_char c s = true).
Proof.
  induction s as [|x s IH]; simpl; [discriminate|].
  intro H. apply orb_prop in H as [H|H].
  - apply Ascii.eqb_eq in H.
    destruct (Ascii.eqb_spec x a) as [->|Hne]; [now left|].
    right. subst c. split; [exact Hne|]. now rewrite Ascii.eqb_refl.
  - destruct (IH H) as [->|[Hne Hs]]; [now left|].
    right. split; [exact Hne|]. rewrite Hs. apply orb_true_r.
Qed.

Lemma lower_ascii_not_upper (x : ascii) : is_upper (lower_ascii x) = false.
Proof.
  destruct x as [[] [] [] [] [] [] [] []]; vm_compute; reflexivity.
Qed.

Lemma toLower_no_upper (c : ascii) (s : string) :
  is_upper c = true -> has_char c (toLower s) = false.
Proof.
  intro Hc. induction s as [|x s IH]; simpl; [reflexivity|].
  rewrite IH, orb_false_r. apply Ascii.eqb_neq. intros ->.
  now rewrite lower_ascii_not_upper in Hc.
Qed.

(** X10.  A file name that the visualization returns is the entity in
    lower case, its spaces replaced by underscores, followed by
    "_graph.html": it holds no space and no upper-case ASCII letter. *)
Theorem graph_filename_shape (w : World) (question filename status : string)
    (button : bool) (tr : list Event) :
  fst (generate_graph_visualization w question tr)
  = Returned (Some filename, status, button) ->
  (exists names,
     entity_chain w question = Returned names
     /\ filename
        = replace_char " " "_" (toLower (primary_entity names))
            +++ "_graph.html")
  /\ has_char " " filename = false
  /\ (forall c, is_upper c = true -> has_char c filename = false).
Proof.
  intro H.
  destruct (generate_graph_visualization_cases w question tr)
    as [(st & new & E & _)|(names & nm & rs & He & _ & _ & E)];
    rewrite E in H; cbn [fst] in H; [discriminate|].
  destruct (write_html w _ _ _) as [u|m]; [|discriminate].
  injection H as <- _ _.
  split; [exists names; auto|].
  split.
  - rewrite has_char_append.
    destruct (has_char " " (replace_char " " "_" _)) eqn:Hs; [|reflexivity].
    apply has_char_replace in Hs as [Hs|[Hs _]]; [discriminate|congruence].
  - intros c Hc. rewrite has_char_append.
    destruct (has_char c (replace_char " " "_" _)) eqn:Hs.
    + apply has_char_replace in Hs as [->|[_ Hs]]; [discriminate|].
      now rewrite toLower_no_upper in Hs.
    + simpl. destruct c as [[] [] [] [] [] [] [] []];
        try discriminate Hc; reflexivity.
Qed.

Lemma graph_filename_shape_witness :
  has_char " " "new_york_graph.html" = false.
Proof.
  destruct (graph_filename_shape
              (Scenario.world
                 (mkGraph [mkNode "n0" (Some "New York");
                           mkNode "n1" (Some "USA")]
                    [mkRel "r0" (mkNode "n0" (Some "New York")) "IN"
                       (mkNode "n1" (Some "USA"))])
                 ["New York"])
              "q" "new_york_graph.html"
              "✅ Graph generated for entity: **New York** | Nodes: 2 | Relationships: 1"
              true [])
    as (_ & H & _); [vm_compute; reflexivity|exact H].
Defined.

(** ** The handler as a whole *)

Lemma rstrip_empty (s : string) : rstrip s = "" -> blank s = true.
Proof.
  unfold blank. induction s as [|c s IH]; simpl; [reflexivity|].
  destruct (rstrip s) as [|c' s']; [|discriminate].
  destruct (is_space c); [|discriminate]. intros _. now apply IH.
Qed.

Lemma strip_empty_blank (question : string) :
  strip question = "" -> blank question = true.
Proof.
  unfold strip. induction question as [|c s IH]; [reflexivity|].
  simpl lstrip. destruct (is_space c) eqn:Ec.
  - intro H. unfold blank. simpl. rewrite Ec. now apply IH.
  - intro H. apply rstrip_empty in H. unfold blank in H. simpl in H.
    now rewrite Ec in H.
Qed.

Lemma not_blank_strip (question : string) :
  blank question = false -> exists c s, strip question = String c s.
Proof.
  intro H. destruct (strip question) as [|c s] eqn:E; [|eauto].
  apply strip_empty_blank in E. congruence.
Qed.

(** The handler for a question that is not blank, in terms of the chain
    and of the visualization. *)
Lemma process_unified_query_eq (w : World) (question : string)
    (chat_history : list (string * string)) (tr : list Event) :
  blank question = false ->
  process_unified_query w question chat_history tr
  = match chain_invoke w question tr with
    | (Raised e, tr1) =>
        (Returned (chat_history ++ [(question, "❌ Error: " +++ e)], "", None,
                   "❌ Error: " +++ e, false, ""), tr1)
    | (Returned answer, tr1) =>
        match generate_graph_visualization w question tr1 with
        | (Returned (filename, graph_status, button), tr2) =>
            (Returned (chat_history ++ [(question, answer)], "", filename,
                       graph_status, button, ""), tr2)
        | (Raised e, tr2) => (Raised e, tr2)
        end
    end.
Proof.
  intro Hb. destruct (not_blank_strip question Hb) as (c & s & Hs).
  unfold process_unified_query. rewrite Hs. unfold bind, attempt.
  destruct (chain_invoke w question tr) as [[answer|e] tr1]; [|reflexivity].
  destruct (generate_graph_visualization w question tr1)
    as [[[[filename graph_status] button]|e] tr2]; reflexivity.
Qed.

Lemma generate_graph_visualization_returns (w : World) (question : string)
    (tr : list Event) :
  exists file status button new,
    generate_graph_visualization w question tr
    = (Returned (file, status, button), tr ++ new).
Proof.
  destruct (generate_graph_visualization_cases w question tr)
    as [(status & new & E & _)|(names & nm & rs & _ & _ & _ & E)].
  - now exists None, status, false, new.
  - destruct (write_html w _ _ _) as [u|m]; eexists _, _, _, _; exact E.
Qed.

(** X11.  The handler never raises.  It always clears the input box and,
    debug mode being off, returns no debug text; for a blank question it
    returns the chat history unchanged without calling anything, and for
    any other question the chat history extended by exactly one entry,
    for that question. *)
Theorem handler_always_returns (w : World) (question : string)
    (chat_history : list (string * string)) (tr : list Event) :
  exists history file status button tr',
    process_unified_query w question chat_history tr
    = (Returned (history, "", file, status, button, ""), tr')
    /\ (blank question = true -> history = chat_history /\ tr' = tr)
    /\ (blank question = false ->
        exists reply, history = chat_history ++ [(question, reply)]).
Proof.
  destruct (blank question) eqn:Hb.
  - exists chat_history, None, "⚠️ Please enter a question", false, tr.
    unfold process_unified_query. rewrite (strip_blank _ Hb).
    repeat split; congruence.
  - rewrite (process_unified_query_eq _ _ _ _ Hb).
    destruct (chain_invoke w question tr) as [[answer|e] tr1].
    + destruct (generate_graph_visualization_returns w question tr1)
        as (file & status & button & new & ->).
      eexists _, _, _, _, _. split; [reflexivity|].
      split; [congruence|]. intros _. eauto.
    + eexists _, _, _, _, _. split; [reflexivity|].
      split; [congruence|]. intros _. eauto.
Qed.

Lemma retrieve_entity_no_graph_data (w : World) (e : string)
    (tr : list Event) :
  graph_data_entities (snd (retrieve_entity w e tr)) = graph_data_entities tr.
Proof.
  unfold retrieve_entity, bind. rewrite relationship_lines_eq.
  unfold graph_data_entities.
  destruct (match Cypher.relationships_query (kg w) e with
            | [] => _ | _ :: _ => _ end) as [lines|m]; simpl;
    [|rewrite flat_map_app; simpl; now rewrite app_nil_r].
  unfold grandparent_line, bind, call, ret.
  destruct (Cypher.grandparent_query (kg w) e) as [|[[|c s]|] l]; simpl;
    rewrite !flat_map_app; simpl; now rewrite !app_nil_r.
Qed.

Lemma retrieve_entities_no_graph_data (w : World) (names : list string) :
  forall acc tr,
    graph_data_entities (snd (retrieve_entities w names acc tr))
    = graph_data_entities tr.
Proof.
  induction names as [|e rest IH]; intros acc tr; [reflexivity|].
  simpl. unfold bind.
  pose proof (retrieve_entity_no_graph_data w e tr) as Ht.
  destruct (retrieve_entity w e tr) as [[part|m] tr']; simpl in Ht.
  - now rewrite IH.
  - exact Ht.
Qed.

Lemma chain_invoke_no_graph_data (w : World) (question : string)
    (tr : list Event) :
  graph_data_entities (snd (chain_invoke w question tr))
  = graph_data_entities tr.
Proof.
  unfold chain_invoke, retriever, structured_retriever, bind, call, ret.
  destruct (entity_chain w question) as [names|m].
  - pose proof (retrieve_entities_no_graph_data w names ""
                  (tr ++ [EvExtract question])) as Ht.
    destruct (retrieve_entities w names "" (tr ++ [EvExtract question]))
      as [[text|m] tr1]; simpl in Ht |- *;
      unfold graph_data_entities in *;
      rewrite ?flat_map_app in *; simpl in *;
      rewrite ?app_nil_r in *; exact Ht.
  - simpl. unfold graph_data_entities. rewrite flat_map_app. simpl.
    now rewrite app_nil_r.
Qed.

(** X12.  When the chain raises for a question that is not blank,
    whether the extractor, the text retrieval or the language model
    failed, the handler reports it: the chat history gets the entry
    (question, "Error: ..."), the status is the same text, there is no
    file and no button, and the visualization is not run: nothing is
    called after the chain, and no graph-data query is sent. *)
Theorem chain_failure_reported (w : World) (question msg : string)
    (chat_history : list (string * string)) (tr tr1 : list Event) :
  blank question = false ->
  chain_invoke w question tr = (Raised msg, tr1) ->
  process_unified_query w question chat_history tr
  = (Returned (chat_history ++ [(question, "❌ Error: " +++ msg)], "", None,
               "❌ Error: " +++ msg, false, ""), tr1)
  /\ graph_data_entities tr1 = graph_data_entities tr.
Proof.
  intros Hb Hc. split.
  - now rewrite (process_unified_query_eq _ _ _ _ Hb), Hc.
  - pose proof (chain_invoke_no_graph_data w question tr) as H.
    now rewrite Hc in H.
Qed.

Lemma chain_failure_reported_witness :
  process_unified_query FailingChat.world "Where is A?" [] []
  = (Returned ([("Where is A?", "❌ Error: model overloaded")], "", None,
               "❌ Error: model overloaded", false, ""),
     [EvExtract "Where is A?"; EvRelationships "A"; EvGrandparent "A";
      EvChat ("Structured data:" +++ nl
                +++ ("A -[WORKS_FOR]-> B" +++ nl
                       +++ "B -[LOCATED_IN]-> C" +++ nl
                       +++ "Grandparent id of A: C" +++ nl)
                +++ nl +++ "    ")
        "Where is A?"]).
Proof.
  apply (chain_failure_reported FailingChat.world "Where is A?"
           "model overloaded" [] []); reflexivity.
Defined.

(** X13.  When the chain returns an answer for a question that is not
    blank, the chat history gets the entry (question, answer) whatever
    the visualization does afterwards, and the file, the status and the
    button are those of the visualization run after the chain. *)
Theorem answer_kept_with_graph (w : World) (question answer : string)
    (chat_history : list (string * string)) (tr tr1 : list Event) :
  blank question = false ->
  chain_invoke w question tr = (Returned answer, tr1) ->
  exists file status button new,
    generate_graph_visualization w question tr1
    = (Returned (file, status, button), tr1 ++ new)
    /\ process_unified_query w question chat_history tr
       = (Returned (chat_history ++ [(question, answer)], "", file, status,
                    button, ""), tr1 ++ new).
Proof.
  intros Hb Hc.
  destruct (generate_graph_visualization_returns w question tr1)
    as (file & status & button & new & E).
  exists file, status, button, new. split; [exact E|].
  now rewrite (process_unified_query_eq _ _ _ _ Hb), Hc, E.
Qed.

Lemma answer_kept_with_graph_witness :
  exists file status button new,
    generate_graph_visualization (Scenario.world Scenario.graph ["Ghost"])
      "Who?" [EvExtract "Who?"; EvRelationships "Ghost";
              EvGrandparent "Ghost";
              EvChat ("Structured data:" +++ nl
                        +++ ("No relationships found for entity: Ghost" +++ nl
                               +++ "No grandparent found for Ghost" +++ nl)
                        +++ nl +++ "    ") "Who?"]
    = (Returned (file, status, button),
       [EvExtract "Who?"; EvRelationships "Ghost"; EvGrandparent "Ghost";
        EvChat ("Structured data:" +++ nl
                  +++ ("No relationships found for entity: Ghost" +++ nl
                         +++ "No grandparent found for Ghost" +++ nl)
                  +++ nl +++ "    ") "Who?"] ++ new).
Proof.
  destruct (answer_kept_with_graph
              (Scenario.world Scenario.graph ["Ghost"]) "Who?"
              ("Structured data:" +++ nl
                 +++ ("No relationships found for entity: Ghost" +++ nl
                        +++ "No grandparent found for Ghost" +++ nl)
                 +++ nl +++ "    ")
              [] [] _ eq_refl eq_refl)
    as (file & status & button & new & E & _).
  exists file, status, button, new. exact E.
Defined.

(** X14.  When the extractor finds no entity, the text retrieval sends
    no query to the store and returns the empty text, so the language
    model is asked with an empty block of structured data; the chain
    returns or raises as the model does. *)
Theorem no_entity_empty_context (w : World) (question : string)
    (tr : list Event) :
  entity_chain w question = Returned [] ->
  structured_retriever w question tr = (Returned "", tr ++ [EvExtract question])
  /\ chain_invoke w question tr
     = (chat w ("Structured data:" +++ nl +++ nl +++ "    ") question,
        tr ++ [EvExtract question;
               EvChat ("Structured data:" +++ nl +++ nl +++ "    ")
                 question]).
Proof.
  intro He.
  assert (structured_retriever w question tr
          = (Returned "", tr ++ [EvExtract question])) as Hs.
  { unfold structured_retriever, bind, call. now rewrite He. }
  split; [exact Hs|].
  unfold chain_invoke, retriever, bind. rewrite Hs.
  unfold ret, call. now rewrite <- app_assoc.
Qed.

Lemma no_entity_empty_context_witness :
  structured_retriever (Scenario.world Scenario.graph []) "Hello" []
  = (Returned "", [EvExtract "Hello"]).
Proof.
  apply (no_entity_empty_context (Scenario.world Scenario.graph []) "Hello" []).
  reflexivity.
Defined.

(** ** The debug log *)

Lemma join_lines_nil_iff (l : list string) :
  match l with [] => "" | _ :: _ => join_lines l end = join_lines l.
Proof. now destruct l. Qed.

Lemma log_debug_all (messages : list string) :
  forall st,
    fold_left (fun s m => log_debug m s) messages st
    = if DEBUG_MODE st
      then mkDebug true (debug_logs st ++ messages) (console st ++ messages)
      else st.
Proof.
  induction messages as [|m messages IH]; intros [mode logs out]; simpl.
  - destruct mode; now rewrite ?app_nil_r.
  - rewrite IH. unfold log_debug. simpl.
    destruct mode; simpl; [|reflexivity]. now rewrite <- !app_assoc.
Qed.

(** X15.  What is logged after the log was cleared is what
    [get_debug_logs] gives back: the messages, in order, one per line,
    when debug mode is on, and the empty text when it is off.  Logging
    never changes the mode; clearing empties the log and leaves the
    console as it is. *)
Theorem debug_log_round_trip (messages : list string) (st : DebugState) :
  get_debug_logs
    (fold_left (fun s m => log_debug m s) messages (clear_debug_logs st))
  = (if DEBUG_MODE st then join_lines messages else "")
  /\ DEBUG_MODE
       (fold_left (fun s m => log_debug m s) messages (clear_debug_logs st))
     = DEBUG_MODE st
  /\ console
       (fold_left (fun s m => log_debug m s) messages (clear_debug_logs st))
     = (if DEBUG_MODE st then console st ++ messages else console st).
Proof.
  rewrite log_debug_all. destruct st as [[] logs out]; simpl;
    unfold get_debug_logs; simpl; (split; [|split]); try reflexivity.
  apply join_lines_nil_iff.
Qed.

(** X16.  The button that opens the graph is shown only with a file
    name that [open_graph_in_browser] accepts: for a file name returned
    by the visualization, the answer is never "No graph file to open",
    and when the path resolves, exactly one address, "file://" followed
    by the path, is handed to the browser.  Without a file name nothing
    is opened. *)
Theorem open_after_visualization (d : Desktop) (w : World)
    (question filename status : string) (button : bool) (tr : list Event)
    (st : DebugState) :
  fst (generate_graph_visualization w question tr)
  = Returned (Some filename, status, button) ->
  button = true
  /\ fst (fst (open_graph_in_browser d (Some filename) st))
     <> "❌ No graph file to open"
  /\ (forall path,
        abspath d filename = Returned path ->
        snd (fst (open_graph_in_browser d (Some filename) st))
        = ["file://" +++ path])
  /\ open_graph_in_browser d None st = ("❌ No graph file to open", [], st).
Proof.
  intro H.
  destruct (generate_graph_visualization_cases w question tr)
    as [(s & new & E & _)|(names & nm & rs & _ & _ & _ & E)];
    rewrite E in H; cbn [fst] in H; [discriminate|].
  destruct (write_html w _ _ _) as [u|m]; [|discriminate].
  injection H as <- _ <-.
  split; [reflexivity|].
  assert (exists c s,
            replace_char " " "_" (toLower (primary_entity names))
              +++ "_graph.html" = String c s) as (c & s & ->).
  { destruct (replace_char " " "_" (toLower (primary_entity names)));
      simpl; eauto. }
  unfold open_graph_in_browser. split; [|split; [|reflexivity]].
  - destruct (abspath d (String c s)) as [path|e];
      [|simpl; discriminate].
    destruct (webbrowser_open d ("file://" +++ path)); simpl; discriminate.
  - intros path ->. now destruct (webbrowser_open d ("file://" +++ path)).
Qed.

Lemma open_after_visualization_witness :
  snd (fst (open_graph_in_browser
              (mkDesktop (fun f => Returned ("/srv/app/" +++ f))
                 (fun _ => Returned true))
              (Some "b_graph.html") (mkDebug false [] [])))
  = ["file:///srv/app/b_graph.html"].
Proof.
  destruct (open_after_visualization
              (mkDesktop (fun f => Returned ("/srv/app/" +++ f))
                 (fun _ => Returned true))
              (Scenario.world Scenario.graph ["b"]) "q" "b_graph.html"
              "✅ Graph generated for entity: **b** | Nodes: 3 | Relationships: 2"
              true [] (mkDebug false [] []))
    as (_ & _ & H & _); [vm_compute; reflexivity|].
  apply (H "/srv/app/b_graph.html"). reflexivity.
Defined.

(** ** Loading the store *)

(** X17.  [setup_graph_database] touches nothing when the pickle is
    missing and then returns [False].  It sends the graph documents to
    the store exactly when the pickle loads and the count query does not
    report an existing document, be it that it reports none or that it
    fails, its failure being printed and passed over.  It returns [True]
    exactly when the pickle loads and either documents exist already or
    the store takes the new ones, and it raises only what loading the
    pickle raises. *)
Theorem setup_loads_at_most_once (env : SetupEnv) :
  (pickle_exists env = false ->
   setup_graph_database env
   = (Returned false,
      [SPrint
         "❌ Pickle file not found. Please run the document processing first."]))
  /\ (In SAddGraphDocuments (snd (setup_graph_database env))
      <-> pickle_exists env = true
          /\ (exists n, pickle_load env = Returned n)
          /\ (forall doc_count rest,
                count_documents env = Returned (doc_count :: rest) ->
                doc_count = 0))
  /\ (fst (setup_graph_database env) = Returned true
      <-> pickle_exists env = true
          /\ (exists n, pickle_load env = Returned n)
          /\ ((exists doc_count rest,
                 count_documents env = Returned (doc_count :: rest)
                 /\ 0 < doc_count)
              \/ exists u, add_graph_documents env = Returned u))
  /\ (forall m,
        fst (setup_graph_database env) = Raised m
        <-> pickle_exists env = true /\ pickle_load env = Raised m).
Proof.
  destruct env as [ex load cnt add el].
  unfold setup_graph_database, load_graph_data; simpl.
  split; [intros ->; reflexivity|].
  destruct ex; simpl.
  2:{ split; [|split].
      - split; [intros [H|[]]; discriminate|intros [H _]; discriminate].
      - split; [discriminate|intros [H _]; discriminate].
      - intro m. split; [discriminate|intros [H _]; discriminate]. }
  destruct load as [n|e]; simpl.
  2:{ split; [|split].
      - split.
        + intros [H|[H|[]]]; discriminate.
        + intros (_ & (k & H) & _). discriminate.
      - split; [discriminate|intros (_ & (k & H) & _); discriminate].
      - intro m. split; [intros [= ->]; auto|intros [_ [= ->]]; reflexivity]. }
  assert (forall P : Prop, P -> (true = true /\ (exists k, Returned n = Returned k) /\ P))
    as Hpre by (intros P HP; repeat split; eauto).
  destruct cnt as [[|c rest]|e]; simpl.
  - destruct add as [u|e]; simpl; (split; [|split]).
    + split; [intros _; apply Hpre; intros; discriminate|intros _; auto 10].
    + split; [intros _; apply Hpre; eauto|reflexivity].
    + intro m. split; [discriminate|intros [_ H]; discriminate].
    + split; [intros _; apply Hpre; intros; discriminate|intros _; auto 10].
    + split; [discriminate|].
      intros (_ & _ & [(c & r & H & _)|(u & H)]); discriminate.
    + intro m. split; [discriminate|intros [_ H]; discriminate].
  - destruct c as [|c]; simpl.
    + destruct add as [u|e]; simpl; (split; [|split]).
      * split; [intros _; apply Hpre; now intros ? ? [= <- _]
               |intros _; auto 10].
      * split; [intros _; apply Hpre; eauto|reflexivity].
      * intro m. split; [discriminate|intros [_ H]; discriminate].
      * split; [intros _; apply Hpre; now intros ? ? [= <- _]
               |intros _; auto 10].
      * split; [discriminate|].
        intros (_ & _ & [(c & r & [= <- _] & H)|(u & H)]);
          [lia|discriminate].
      * intro m. split; [discriminate|intros [_ H]; discriminate].
    + split; [|split].
      * split.
        -- intros [H|[H|[H|[H|[H|[]]]]]]; discriminate.
        -- intros (_ & _ & H). specialize (H _ _ eq_refl). discriminate.
      * split; [intros _; apply Hpre; left; exists (S c), rest; split;
                 [reflexivity|lia]
               |reflexivity].
      * intro m. split; [discriminate|intros [_ H]; discriminate].
  - destruct add as [u|e']; simpl; (split; [|split]).
    + split; [intros _; apply Hpre; intros; discriminate|intros _; auto 10].
    + split; [intros _; apply Hpre; eauto|reflexivity].
    + intro m. split; [discriminate|intros [_ H]; discriminate].
    + split; [intros _; apply Hpre; intros; discriminate|intros _; auto 10].
    + split; [discriminate|].
      intros (_ & _ & [(c & r & H & _)|(u & H)]); discriminate.
    + intro m. split; [discriminate|intros [_ H]; discriminate].
Qed.

(** ** Debug mode and the command-line loop *)

Lemma retrieve_entities_debug_erase (w : World) (debug : bool)
    (names : list string) :
  forall acc tr out,
    exists printed,
      retrieve_entities_debug debug w names acc tr out
      = (fst (retrieve_entities w names acc tr),
         snd (retrieve_entities w names acc tr), out ++ printed)
      /\ (debug = false -> printed = []).
Proof.
  induction names as [|e rest IH]; intros acc tr out.
  - exists []. simpl. unfold pret. now rewrite app_nil_r.
  - cbn [retrieve_entities_debug retrieve_entities].
    unfold pbind, bind, lift, debug_print, print, pret.
    destruct debug; cbn beta iota.
    + destruct (retrieve_entity w e tr) as [[part|m] tr']; cbn [fst snd].
      * destruct (IH (acc +++ part) tr'
                    (out ++ [("Getting relationships for entity: " +++ e)
                               +++ nl]))
          as (printed & -> & _).
        eexists. rewrite <- app_assoc. split; [reflexivity|discriminate].
      * eexists. split; [reflexivity|discriminate].
    + destruct (retrieve_entity w e tr) as [[part|m] tr']; cbn [fst snd].
      * destruct (IH (acc +++ part) tr' out) as (printed & -> & Hp).
        exists printed. split; [reflexivity|exact Hp].
      * exists []. rewrite app_nil_r. split; reflexivity.
Qed.

Lemma chain_invoke_debug_erase (w : World) (debug : bool)
    (question : string) (tr : list Event) (out : list string) :
  exists printed,
    chain_invoke_debug debug w question tr out
    = (fst (chain_invoke w question tr), snd (chain_invoke w question tr),
       out ++ printed)
    /\ (debug = false -> printed = []).
Proof.
  unfold chain_invoke_debug, retriever_debug, structured_retriever_debug,
    chain_invoke, retriever, structured_retriever.
  unfold pbind, bind, lift, call, ret, debug_print, print, pret.
  destruct (entity_chain w question) as [names|m].
  - destruct debug; cbn beta iota.
    + destruct (retrieve_entities_debug_erase w true names ""
                  (tr ++ [EvExtract question])
                  (out ++ [("Search query: " +++ question) +++ nl]))
        as (printed & -> & _).
      destruct (retrieve_entities w names "" (tr ++ [EvExtract question]))
        as [[text|m] tr1]; cbn [fst snd];
        eexists; rewrite <- !app_assoc; (split; [reflexivity|discriminate]).
    + destruct (retrieve_entities_debug_erase w false names ""
                  (tr ++ [EvExtract question]) out)
        as (printed & -> & Hp).
      rewrite (Hp eq_refl), app_nil_r.
      destruct (retrieve_entities w names "" (tr ++ [EvExtract question]))
        as [[text|m] tr1]; cbn [fst snd];
        exists []; rewrite app_nil_r; split; reflexivity.
  - destruct debug; cbn beta iota; cbn [fst snd].
    + eexists. split; [reflexivity|discriminate].
    + exists []. rewrite app_nil_r. split; reflexivity.
Qed.

(** X18.  Debug mode changes nothing but what is printed: with the
    flag set or not, the chain returns the same answer or raises the
    same exception, after the same calls to the extractor, the store and
    the language model; what it prints is added to the output, and
    without the flag it prints nothing. *)
Theorem debug_mode_only_prints (w : World) (debug : bool) (question : string)
    (tr : list Event) (out : list string) :
  exists printed,
    chain_invoke_debug debug w question tr out
    = (fst (chain_invoke w question tr), snd (chain_invoke w question tr),
       out ++ printed)
    /\ (debug = false -> printed = []).
Proof. apply chain_invoke_debug_erase. Qed.

Lemma retrieve_entity_no_extract (w : World) (e : string) (tr : list Event) :
  extracted (snd (retrieve_entity w e tr)) = extracted tr.
Proof.
  unfold retrieve_entity, bind. rewrite relationship_lines_eq.
  unfold extracted.
  destruct (match Cypher.relationships_query (kg w) e with
            | [] => _ | _ :: _ => _ end) as [lines|m]; simpl;
    [|rewrite flat_map_app; simpl; now rewrite app_nil_r].
  unfold grandparent_line, bind, call, ret.
  destruct (Cypher.grandparent_query (kg w) e) as [|[[|c s]|] l]; simpl;
    rewrite !flat_map_app; simpl; now rewrite !app_nil_r.
Qed.

Lemma retrieve_entities_no_extract (w : World) (names : list string) :
  forall acc tr,
    extracted (snd (retrieve_entities w names acc tr)) = extracted tr.
Proof.
  induction names as [|e rest IH]; intros acc tr; [reflexivity|].
  simpl. unfold bind.
  pose proof (retrieve_entity_no_extract w e tr) as Ht.
  destruct (retrieve_entity w e tr) as [[part|m] tr']; simpl in Ht.
  - now rewrite IH.
  - exact Ht.
Qed.

(** Every run of the chain asks the extractor once, for the question. *)
Lemma chain_invoke_extracts_once (w : World) (question : string)
    (tr : list Event) :
  extracted (snd (chain_invoke w question tr)) = extracted tr ++ [question].
Proof.
  unfold chain_invoke, retriever, structured_retriever, bind, call, ret.
  assert (extracted (tr ++ [EvExtract question])
          = extracted tr ++ [question]) as Hq.
  { unfold extracted. now rewrite flat_map_app. }
  destruct (entity_chain w question) as [names|m]; [|exact Hq].
  pose proof (retrieve_entities_no_extract w names ""
                (tr ++ [EvExtract question])) as Ht.
  rewrite Hq in Ht.
  destruct (retrieve_entities w names "" (tr ++ [EvExtract question]))
    as [[text|m] tr1]; simpl in Ht |- *; [|exact Ht].
  unfold extracted in *. rewrite flat_map_app. simpl.
  now rewrite app_nil_r.
Qed.

Lemma chat_loop_spec (w : World) (inputs : list string) :
  forall debug tr out,
    extracted (snd (fst (chat_loop w inputs debug tr out)))
    = extracted tr ++ questions_typed inputs
    /\ fst (fst (fst (chat_loop w inputs debug tr out)))
       = (if existsb (fun line => is_quit (strip line)) inputs
          then Returned tt
          else Raised "EOF when reading a line").
Proof.
  induction inputs as [|line rest IH]; intros debug tr out.
  - simpl. now rewrite app_nil_r.
  - cbn [chat_loop questions_typed existsb].
    destruct (is_quit (strip line)) eqn:Eq.
    + simpl. now rewrite app_nil_r.
    + cbn [orb].
      destruct (String.eqb (toLower (strip line)) "verbose"); [apply IH|].
      destruct (strip line) as [|c s] eqn:Es; [apply IH|].
      destruct (chain_invoke_debug_erase w debug (String c s) tr
                  (if debug then out ++ ["You: "]
                   else (out ++ ["You: "]) ++ ["🔄 Processing..." +++ nl]))
        as (printed & -> & _).
      pose proof (chain_invoke_extracts_once w (String c s) tr) as Hx.
      destruct (chain_invoke w (String c s) tr) as [[answer|e] tr1];
        simpl fst; simpl snd; simpl in Hx.
      * destruct debug; cbn beta iota;
          match goal with
          | |- context [chat_loop w rest ?d ?t ?o] =>
              destruct (IH d t o) as [H1 H2]
          end;
          rewrite H1, H2, Hx, <- app_assoc; split; reflexivity.
      * match goal with
        | |- context [chat_loop w rest ?d ?t ?o] =>
            destruct (IH d t o) as [H1 H2]
        end.
        rewrite H1, H2, Hx, <- app_assoc. split; reflexivity.
Qed.

Lemma chat_loop_after_quit (w : World) (inputs more : list string) :
  existsb (fun line => is_quit (strip line)) inputs = true ->
  forall debug tr out,
    chat_loop w (inputs ++ more) debug tr out
    = chat_loop w inputs debug tr out.
Proof.
  induction inputs as [|line rest IH]; intros H debug tr out;
    [discriminate|].
  cbn [chat_loop app existsb] in *.
  destruct (is_quit (strip line)); [reflexivity|]. cbn [orb] in H.
  destruct (String.eqb (toLower (strip line)) "verbose"); [now apply IH|].
  destruct (strip line) as [|c s]; [now apply IH|].
  destruct (chain_invoke_debug debug w (String c s) tr _)
    as [[[answer|e] tr1] out1]; now apply IH.
Qed.

(** X19.  The command-line loop ends in two ways only: it returns when
    a line typed is "quit", "exit" or "q", in any case and with any
    white space around it, and it raises [EOFError] when the input ends
    without such a line.  An exception of the chain never ends it.
    Whatever follows the quit command is not read. *)
Theorem command_loop_ends_on_quit (w : World) (verbose : bool)
    (inputs : list string) :
  (fst (fst (fst (run_interactive_chat w verbose inputs))) = Returned tt
   <-> exists line, In line inputs /\ is_quit (strip line) = true)
  /\ (fst (fst (fst (run_interactive_chat w verbose inputs)))
      = Raised "EOF when reading a line"
      <-> forall line, In line inputs -> is_quit (strip line) = false)
  /\ ((exists line, In line inputs /\ is_quit (strip line) = true) ->
      forall more,
        run_interactive_chat w verbose (inputs ++ more)
        = run_interactive_chat w verbose inputs).
Proof.
  unfold run_interactive_chat.
  assert ((exists line, In line inputs /\ is_quit (strip line) = true)
          <-> existsb (fun line => is_quit (strip line)) inputs = true) as Hq.
  { rewrite existsb_exists. reflexivity. }
  match goal with
  | |- context [chat_loop w inputs verbose [] ?o] =>
      destruct (chat_loop_spec w inputs verbose [] o) as [_ ->]
  end.
  split; [|split].
  - rewrite Hq. destruct (existsb _ inputs); split; congruence.
  - destruct (existsb _ inputs) eqn:E.
    + split; [discriminate|]. intro H.
      apply existsb_exists in E as (line & Hin & Hl).
      rewrite (H line Hin) in Hl. discriminate.
    + split; [|reflexivity]. intros _ line Hin.
      destruct (is_quit (strip line)) eqn:El; [|reflexivity].
      assert (existsb (fun line => is_quit (strip line)) inputs = true) as H
        by (apply existsb_exists; eauto).
      congruence.
  - intros H more. apply chat_loop_after_quit. now apply Hq.
Qed.

(** X20.  The loop hands to the chain, once each and in the order
    typed, exactly the lines before the first quit command that, stripped
    of white space, are neither empty nor the command "verbose", and it
    hands them stripped.  A question whose chain raises does not keep
    the later ones from being asked, and the mode does not matter. *)
Theorem command_loop_asks_each_question (w : World) (verbose : bool)
    (inputs : list string) :
  extracted (snd (fst (run_interactive_chat w verbose inputs)))
  = questions_typed inputs.
Proof.
  unfold run_interactive_chat.
  match goal with
  | |- context [chat_loop w inputs verbose [] ?o] =>
      now destruct (chat_loop_spec w inputs verbose [] o) as [-> _]
  end.
Qed.

Lemma command_loop_ends_on_quit_witness :
  run_interactive_chat (Scenario.world Scenario.graph ["A"]) false
    ([" Quit "] ++ ["Where is A?"])
  = run_interactive_chat (Scenario.world Scenario.graph ["A"]) false
      [" Quit "].
Proof.
  destruct (command_loop_ends_on_quit
              (Scenario.world Scenario.graph ["A"]) false [" Quit "])
    as (_ & _ & H).
  apply H. exists " Quit ". split; [now left|reflexivity].
Defined.

Lemma debug_mode_only_prints_witness :
  exists printed,
    chain_invoke_debug false (Scenario.world Scenario.graph ["A"]) "q" [] []
    = (fst (chain_invoke (Scenario.world Scenario.graph ["A"]) "q" []),
       snd (chain_invoke (Scenario.world Scenario.graph ["A"]) "q" []),
       printed)
    /\ printed = [].
Proof.
  destruct (debug_mode_only_prints
              (Scenario.world Scenario.graph ["A"]) false "q" [] [])
    as (printed & E & H).
  exists printed. split; [exact E|now apply H].
Defined.

(** ** Instances *)

Lemma handler_always_returns_witness :
  exists history file status button tr',
    process_unified_query (Scenario.world Scenario.graph ["A"]) "  "
      [("q", "a")] []
    = (Returned (history, "", file, status, button, ""), tr')
    /\ history = [("q", "a")] /\ tr' = [].
Proof.
  destruct (handler_always_returns (Scenario.world Scenario.graph ["A"])
              "  " [("q", "a")] [])
    as (history & file & status & button & tr' & E & Hb & _).
  exists history, file, status, button, tr'.
  split; [exact E|]. apply Hb. vm_compute. reflexivity.
Defined.

Lemma setup_loads_at_most_once_witness :
  setup_graph_database
    (mkSetupEnv false (Returned 12) (Returned [0]) (Returned tt) "3.21")
  = (Returned false,
     [SPrint
        "❌ Pickle file not found. Please run the document processing first."]).
Proof.
  destruct (setup_loads_at_most_once
              (mkSetupEnv false (Returned 12) (Returned [0]) (Returned tt)
                 "3.21"))
    as (H & _).
  apply H. reflexivity.
Defined.

(** ** A file that cannot be written *)

Lemma visualization_always_returns_witness :
  fst (generate_graph_visualization SlashScenario.world "q" [])
  = Returned
      (None,
       "❌ Error generating graph: "
         +++ "[Errno 2] No such file or directory: 'ac/dc_graph.html'",
       false).
Proof.
  destruct (visualization_always_returns SlashScenario.world "q" [])
    as (file & status & button & new & E & Hb & _ & Hr).
  assert (In (EvWriteHtml "ac/dc_graph.html" [(0, "AC/DC"); (1, "Rock")]
                [mkRelEntry 0 1 "PLAYS"]) new) as Hin.
  { pose proof E as E'. vm_compute in E'. injection E' as _ _ _ <-.
    right. right. left. reflexivity. }
  destruct (Hr _ _ _ _ Hin eq_refl) as [-> ->].
  rewrite E. cbn [fst]. destruct button; [|reflexivity].
  exfalso. now apply (proj1 Hb).
Defined.
